(** * queue-sqlite: the persistent queue engine

    A shallow embedding of [src/database.ts] (the store), [src/worker.ts]
    (the worker loop and its recurrence logic) and the queue manager
    (producer API and the parent side of the dispatch channel).

    Conventions of the embedding.
    - Instants ([Date] values and the ISO-8601 text SQLite stores for them)
      are integers: milliseconds since the epoch.  [toISOString] is
      order-preserving for four-digit years, so the textual [startAt <= ?]
      of the claim query is the order of [Z].
    - [CURRENT_TIMESTAMP] is read by every UPDATE; each store operation takes
      that reading as its [stamp] argument.
    - JS numbers held in the integer columns are [Z].
    - A nullable column or an optional property is an [option]; [None] is
      NULL / [undefined].
    - The table is a finite map from the primary key [id] to the other
      columns; [sqlite_sequence] is the AUTOINCREMENT counter. *)

From Stdlib Require Import ZArith String List Bool Lia Sorting.Sorted.
From stdpp Require Import base option gmap fin_maps.

Local Open Scope string_scope.
Local Open Scope list_scope.
Local Open Scope Z_scope.

(** ** types.ts *)

Inductive Status : Type :=
  | pending
  | processing
  | completed
  | failed
  | scheduled.

Definition Status_eqb (a b : Status) : bool :=
  match a, b with
  | pending, pending
  | processing, processing
  | completed, completed
  | failed, failed
  | scheduled, scheduled => true
  | _, _ => false
  end.

(** [Omit<QueueMessage, "id" | "createdAt" | "updatedAt">]: what a producer
    supplies. *)
Record Fields : Type := mkFields {
  queue : string;
  payload : string;
  status : Status;
  startAt : Z;
  retryCount : Z;
  maxRetries : Z;
  interval : option Z;
  respawnCount : Z;
  maxRespawns : Z;
  cronPattern : option string
}.

(** A stored row: the columns other than the primary key. *)
Record Row : Type := mkRow {
  fields :> Fields;
  createdAt : Z;
  updatedAt : Z
}.

(** [QueueMessage] as [SELECT *] returns it. *)
Record QueueMessage : Type := mkMessage {
  id : Z;
  row :> Row
}.

(** What a call can throw. *)
Inductive Exn : Type :=
  | TypeError            (* property read on [undefined] *)
  | SyntaxError          (* [JSON.parse] *)
  | Timeout              (* "Message processing timeout" *)
  | HandlerError (msg : string)
  | CronError.           (* [cronParser.parseExpression] *)

Inductive Result (A : Type) : Type :=
  | Ok (a : A)
  | Throw (e : Exn).
Arguments Ok {A} a.
Arguments Throw {A} e.

(** ** database.ts *)

Record Db : Type := mkDb {
  rows : gmap Z Row;
  sqlite_sequence : Z
}.

Definition empty_db : Db := mkDb ∅ 0.

Module QueueDatabase.

(** [SET status = st, updatedAt = CURRENT_TIMESTAMP] *)
Definition set_status (st : Status) (stamp : Z) (r : Row) : Row :=
  mkRow
    (mkFields (queue r) (payload r) st (startAt r) (retryCount r)
       (maxRetries r) (interval r) (respawnCount r) (maxRespawns r)
       (cronPattern r))
    (createdAt r) stamp.

(** [SET status = 'pending', retryCount = retryCount + 1,
     updatedAt = CURRENT_TIMESTAMP] *)
Definition set_retry (stamp : Z) (r : Row) : Row :=
  mkRow
    (mkFields (queue r) (payload r) pending (startAt r) (retryCount r + 1)
       (maxRetries r) (interval r) (respawnCount r) (maxRespawns r)
       (cronPattern r))
    (createdAt r) stamp.

(** [SET startAt = ?, status = 'pending', updatedAt = CURRENT_TIMESTAMP] *)
Definition set_startAt (nextRunTime : Z) (stamp : Z) (r : Row) : Row :=
  mkRow
    (mkFields (queue r) (payload r) pending nextRunTime (retryCount r)
       (maxRetries r) (interval r) (respawnCount r) (maxRespawns r)
       (cronPattern r))
    (createdAt r) stamp.

(** [UPDATE queue_messages SET ... WHERE id = ?]: touches the row with that
    key when there is one, and nothing otherwise. *)
Definition update_where_id (i : Z) (f : Row -> Row) (db : Db) : Db :=
  mkDb (alter f i (rows db)) (sqlite_sequence db).

(** The largest key in the table (0 when it is empty). *)
Definition largest_rowid (db : Db) : Z :=
  foldr (fun x acc => Z.max (fst x) acc) 0 (map_to_list (rows db)).

(** [addMessage]: INSERT.  AUTOINCREMENT gives the row a key one above the
    largest the table has ever held; [createdAt] and [updatedAt] take their
    column default.  Returns [lastInsertRowid]. *)
Definition addMessage (message : Fields) (stamp : Z) (db : Db) : Z * Db :=
  let i := Z.max (sqlite_sequence db) (largest_rowid db) + 1 in
  (i, mkDb (<[i := mkRow message stamp stamp]> (rows db)) i).

(** [WHERE status = 'pending' AND startAt <= ?] *)
Definition eligible (now : Z) (r : Row) : bool :=
  Status_eqb (status r) pending && (startAt r <=? now).

(** [ORDER BY startAt ASC]; SQL leaves the order of equal keys open, the
    index on [startAt] yields them by ascending rowid. *)
Definition earlier (a b : Z * Row) : bool :=
  (startAt (snd a) <? startAt (snd b))
  || ((startAt (snd a) =? startAt (snd b)) && (fst a <=? fst b)).

(** [LIMIT 1] of the ordered result. *)
Fixpoint first_by_startAt (l : list (Z * Row)) : option (Z * Row) :=
  match l with
  | [] => None
  | x :: l' =>
      match first_by_startAt l' with
      | None => Some x
      | Some y => Some (if earlier x y then x else y)
      end
  end.

Definition select_next (now : Z) (db : Db) : option (Z * Row) :=
  first_by_startAt
    (List.filter (fun x => eligible now (snd x)) (map_to_list (rows db))).

(** [getNextMessage]: the body of the transaction, one atomic step on the
    database.  The returned object is the row as selected, before the
    update. *)
Definition getNextMessage (workerId : Z) (now stamp : Z) (db : Db)
  : option QueueMessage * Db :=
  match select_next now db with
  | Some (i, r) =>
      (Some (mkMessage i r), update_where_id i (set_status processing stamp) db)
  | None => (None, db)
  end.

Definition markMessageComplete (i : Z) (stamp : Z) (db : Db) : Db :=
  update_where_id i (set_status completed stamp) db.

(** [SELECT * FROM queue_messages WHERE id = ?] *)
Definition select_by_id (i : Z) (db : Db) : option Row := rows db !! i.

(** [markMessageFailed]: [.get(id)] is [undefined] when no row has the key,
    and reading [retryCount] of it throws. *)
Definition markMessageFailed (i : Z) (stamp : Z) (db : Db) : Result Db :=
  match select_by_id i db with
  | None => Throw TypeError
  | Some message =>
      if retryCount message <? maxRetries message
      then Ok (update_where_id i (set_retry stamp) db)
      else Ok (update_where_id i (set_status failed stamp) db)
  end.

Definition rescheduleMessage (i : Z) (nextRunTime : Z) (stamp : Z) (db : Db) : Db :=
  update_where_id i (set_startAt nextRunTime stamp) db.

End QueueDatabase.

(** ** Modules the repository imports

    [JSON], and [cron-parser]: [cron_next p now] is
    [cronParser.parseExpression(p).next().toDate()] evaluated when the clock
    reads [now]; [None] stands for the exception a malformed pattern
    raises.  [JSON_parse] is [None] where [JSON.parse] throws. *)
Class Externals : Type := {
  Json : Type;
  JSON_stringify : Json -> string;
  JSON_parse : string -> option Json;
  cron_next : string -> Z -> option Z
}.

(** JS truthiness of the values the code tests. *)
Definition truthy_number (x : option Z) : bool :=
  match x with
  | Some n => negb (n =? 0)
  | None => false
  end.

Definition truthy_string (x : option string) : bool :=
  match x with
  | Some s => negb (String.eqb s "")
  | None => false
  end.

(** [x || d] on an optional number. *)
Definition or_number (x : option Z) (d : Z) : Z :=
  match x with
  | Some n => if n =? 0 then d else n
  | None => d
  end.

(** [x === n] where [x] may be [undefined]. *)
Definition strict_eq (x : option Z) (n : Z) : bool :=
  match x with
  | Some k => k =? n
  | None => false
  end.

Section Port.
Context `{Externals}.

(** An object sent over the worker port; an absent property is [None]. *)
Record PortMessage : Type := mkPort {
  type : string;
  port_queue : option string;
  port_payload : option Json;
  messageId : option Z;
  result : option bool;
  error : option string
}.

End Port.

(** ** The queue manager *)

Module QueueManager.
Section WithExternals.
Context `{Externals}.

(** A listener is handed [data.payload]; it either returns (the promise of
    an async listener is not awaited by [emit]) or throws synchronously
    with a message. *)
Definition MessageHandler : Type := option Json -> option string.

Definition event_name (q : option string) : string :=
  ("queue:" ++ match q with Some s => s | None => "undefined" end)%string.

(** [EventEmitter.emit]: listeners of the event run in registration order;
    the first that throws ends the call. *)
Fixpoint emit (listeners : list (string * MessageHandler)) (event : string)
    (p : option Json) : option string :=
  match listeners with
  | [] => None
  | (e, h) :: rest =>
      if String.eqb e event
      then match h p with
           | Some msg => Some msg
           | None => emit rest event p
           end
      else emit rest event p
  end.

(** [worker.on("message", ...)] in [start]: the reply posted back to the
    worker, if any. *)
Definition on_message (listeners : list (string * MessageHandler))
    (data : PortMessage) : option PortMessage :=
  if String.eqb (type data) "process" then
    match emit listeners (event_name (port_queue data)) (port_payload data) with
    | None =>
        Some (mkPort "processResult" None None (messageId data)
                (Some true) None)
    | Some msg =>
        Some (mkPort "processResult" None None (messageId data)
                None (Some msg))
    end
  else None.

(** The [options] argument of [addMessage]. *)
Record Options : Type := mkOptions {
  opt_queue : string;
  opt_payload : Json;
  opt_startAt : option Z;
  opt_maxRetries : option Z;
  opt_interval : option Z;
  opt_maxRespawns : option Z;
  opt_cronPattern : option string
}.

(** The object [addMessage] builds; [now] is [new Date()]. *)
Definition new_message (options : Options) (now : Z) : Fields :=
  mkFields
    (opt_queue options)
    (JSON_stringify (opt_payload options))
    pending
    (match opt_startAt options with Some d => d | None => now end)
    0
    (or_number (opt_maxRetries options) 0)
    (opt_interval options)
    0
    (or_number (opt_maxRespawns options) (-1))
    (opt_cronPattern options).

Definition addMessage (options : Options) (now stamp : Z) (db : Db)
  : Z * Db :=
  QueueDatabase.addMessage (new_message options now) stamp db.

End WithExternals.
End QueueManager.

(** ** types.ts: the event emitter *)

Module QueueEventEmitter.
Section WithExternals.
Context `{Externals}.

(** [addQueueListener]: [this.on] appends the handler to the listeners of
    the queue's event. *)
Definition addQueueListener (queue : string) (handler : QueueManager.MessageHandler)
    (listeners : list (string * QueueManager.MessageHandler))
  : list (string * QueueManager.MessageHandler) :=
  listeners ++ [(QueueManager.event_name (Some queue), handler)].

(** [emitQueueEvent]: [None] when the call returns, the message of the
    error when a listener throws. *)
Definition emitQueueEvent (listeners : list (string * QueueManager.MessageHandler))
    (queue : string) (p : option Json) : option string :=
  QueueManager.emit listeners (QueueManager.event_name (Some queue)) p.

End WithExternals.
End QueueEventEmitter.

(** ** The worker *)

Module QueueWorker.
Section WithExternals.
Context `{Externals}.

(** What the worker does to the outside: posts on the parent port and
    calls on its database connection. *)
Inductive Event : Type :=
  | Post (data : PortMessage)
  | GetNextMessage (returned : option Z)
  | MarkComplete (i : Z)
  | Reschedule (i : Z) (nextRunTime : Z)
  | MarkFailed (i : Z).

Record World : Type := mkWorld {
  db : Db;
  trace : list Event
}.

(** Computations of the worker: they change the world and return or
    throw; what was done before a throw stays done. *)
Definition M (A : Type) : Type := World -> Result A * World.

Definition ret {A} (a : A) : M A := fun w => (Ok a, w).

Definition throw {A} (e : Exn) : M A := fun w => (Throw e, w).

Definition bind {A B} (m : M A) (k : A -> M B) : M B :=
  fun w =>
    match m w with
    | (Ok a, w') => k a w'
    | (Throw e, w') => (Throw e, w')
    end.

Definition try_catch {A} (m : M A) (handler : Exn -> M A) : M A :=
  fun w =>
    match m w with
    | (Ok a, w') => (Ok a, w')
    | (Throw e, w') => handler e w'
    end.

Definition emit_event (e : Event) : M unit :=
  fun w => (Ok tt, mkWorld (db w) (trace w ++ [e])).

Notation "x <- c1 ;; c2" := (bind c1 (fun x => c2))
  (at level 100, c1 at next level, right associativity).
Notation "c1 ;; c2" := (bind c1 (fun _ => c2))
  (at level 100, right associativity).

(** The calls on [this.db]. *)
Definition db_getNextMessage (workerId now stamp : Z) : M (option QueueMessage) :=
  fun w =>
    let (message, d) := QueueDatabase.getNextMessage workerId now stamp (db w) in
    (Ok message,
     mkWorld d (trace w ++ [GetNextMessage (option_map id message)])).

Definition db_markMessageComplete (i stamp : Z) : M unit :=
  fun w =>
    (Ok tt,
     mkWorld (QueueDatabase.markMessageComplete i stamp (db w))
       (trace w ++ [MarkComplete i])).

Definition db_rescheduleMessage (i nextRunTime stamp : Z) : M unit :=
  fun w =>
    (Ok tt,
     mkWorld (QueueDatabase.rescheduleMessage i nextRunTime stamp (db w))
       (trace w ++ [Reschedule i nextRunTime])).

Definition db_markMessageFailed (i stamp : Z) : M unit :=
  fun w =>
    match QueueDatabase.markMessageFailed i stamp (db w) with
    | Ok d => (Ok tt, mkWorld d (trace w ++ [MarkFailed i]))
    | Throw e => (Throw e, mkWorld (db w) (trace w ++ [MarkFailed i]))
    end.

(** The request [processMessage] posts. *)
Definition request (message : QueueMessage) (p : Json) : PortMessage :=
  mkPort "process" (Some (queue message)) (Some p) None None None.

(** The guard of the reply handler. *)
Definition accepts (message : QueueMessage) (data : PortMessage) : bool :=
  String.eqb (type data) "processResult"
  && strict_eq (messageId data) (id message).

(** [processMessage]: [inbox] lists what arrives on the port, in order,
    within the 30 seconds the promise waits. *)
Definition processMessage (message : QueueMessage) (inbox : list PortMessage)
  : M unit :=
  match JSON_parse (payload message) with
  | None => throw SyntaxError
  | Some p =>
      emit_event (Post (request message p)) ;;
      match List.find (accepts message) inbox with
      | None => throw Timeout
      | Some data =>
          match error data with
          | Some msg =>
              if String.eqb msg "" then ret tt else throw (HandlerError msg)
          | None => ret tt
          end
      end
  end.

(** What one pass of the loop reads from outside: the clock ([new Date()]
    and [CURRENT_TIMESTAMP] at each place that reads it) and the port. *)
Record Env : Type := mkEnv {
  now_claim : Z;
  stamp_claim : Z;
  inbox : list PortMessage;
  stamp_complete : Z;
  now_interval : Z;
  stamp_interval : Z;
  now_cron : Z;
  stamp_cron : Z;
  stamp_failed : Z
}.

(** The interval branch after a successful run. *)
Definition handle_interval (message : QueueMessage) (env : Env) : M unit :=
  match interval message with
  | Some iv =>
      if iv =? 0 then ret tt
      else if (maxRespawns message =? -1)
              || (respawnCount message <? maxRespawns message)
      then db_rescheduleMessage (id message) (now_interval env + iv)
             (stamp_interval env)
      else ret tt
  | None => ret tt
  end.

(** The cron branch after a successful run. *)
Definition handle_cron (message : QueueMessage) (env : Env) : M unit :=
  match cronPattern message with
  | Some p =>
      if String.eqb p "" then ret tt
      else match cron_next p (now_cron env) with
           | Some nextRunTime =>
               db_rescheduleMessage (id message) nextRunTime (stamp_cron env)
           | None => throw CronError
           end
  | None => ret tt
  end.

(** What follows [await this.processMessage(message)] inside the [try]. *)
Definition on_success (message : QueueMessage) (env : Env) : M unit :=
  db_markMessageComplete (id message) (stamp_complete env) ;;
  handle_interval message env ;;
  handle_cron message env.

(** One pass of the [while (true)] of [start]. *)
Definition iteration (workerId : Z) (env : Env) : M unit :=
  message <- db_getNextMessage workerId (now_claim env) (stamp_claim env) ;;
  match message with
  | Some m =>
      try_catch
        (processMessage m (inbox env) ;;
         on_success m env)
        (fun _ => db_markMessageFailed (id m) (stamp_failed env))
  | None => ret tt
  end.

(** [start], run for as many passes as [envs] is long; a throw that leaves
    a pass ends the loop.  The 100 ms sleep between passes shows only in
    the clock readings of the next pass. *)
Fixpoint start (workerId : Z) (envs : list Env) : M unit :=
  match envs with
  | [] => ret tt
  | env :: rest => iteration workerId env ;; start workerId rest
  end.

(** The [rescheduleMessage] calls of a trace, and its posts. *)
Fixpoint reschedules (t : list Event) : list (Z * Z) :=
  match t with
  | [] => []
  | Reschedule i nextRunTime :: rest => (i, nextRunTime) :: reschedules rest
  | _ :: rest => reschedules rest
  end.

Fixpoint posts (t : list Event) : list PortMessage :=
  match t with
  | [] => []
  | Post data :: rest => data :: posts rest
  | _ :: rest => posts rest
  end.

End WithExternals.
End QueueWorker.

(** ** Scenarios *)

(** N callers of [getNextMessage], in the order in which the storage layer
    serializes their transactions; each call is (worker, now, stamp). *)
Fixpoint concurrent_claims (calls : list (Z * Z * Z)) (db : Db)
  : list (option QueueMessage) * Db :=
  match calls with
  | [] => ([], db)
  | (w, now, stamp) :: rest =>
      let (m, db1) := QueueDatabase.getNextMessage w now stamp db in
      let (ms, db2) := concurrent_claims rest db1 in
      (m :: ms, db2)
  end.

(** The ids handed out by a run of claims. *)
Fixpoint claimed_ids (ms : list (option QueueMessage)) : list Z :=
  match ms with
  | [] => []
  | Some m :: rest => id m :: claimed_ids rest
  | None :: rest => claimed_ids rest
  end.

(** The calls a producer or a worker makes on the store, and a run of
    them from a given database.  A call that throws leaves the database as
    it was. *)
Inductive Call `{Externals} : Type :=
  | CallAdd (options : QueueManager.Options) (now stamp : Z)
  | CallGetNext (workerId now stamp : Z)
  | CallComplete (i stamp : Z)
  | CallFailed (i stamp : Z)
  | CallReschedule (i nextRunTime stamp : Z).

Definition call `{Externals} (c : Call) (db : Db) : Db :=
  match c with
  | CallAdd options now stamp => snd (QueueManager.addMessage options now stamp db)
  | CallGetNext w now stamp => snd (QueueDatabase.getNextMessage w now stamp db)
  | CallComplete i stamp => QueueDatabase.markMessageComplete i stamp db
  | CallFailed i stamp =>
      match QueueDatabase.markMessageFailed i stamp db with
      | Ok db' => db'
      | Throw _ => db
      end
  | CallReschedule i t stamp => QueueDatabase.rescheduleMessage i t stamp db
  end.

Definition calls `{Externals} (cs : list Call) (db : Db) : Db :=
  fold_left (fun d c => call c d) cs db.

(** The retry limit a producer asks for is not negative. *)
Definition sane_call `{Externals} (c : Call) : Prop :=
  match c with
  | CallAdd options _ _ =>
      match QueueManager.opt_maxRetries options with
      | Some n => 0 <= n
      | None => True
      end
  | _ => True
  end.

(** The columns of a row other than [updatedAt]. *)
Definition without_updatedAt (r : Row) : Fields * Z := (fields r, createdAt r).

(** Every stored retry counter is within its limit. *)
Definition retries_bounded (db : Db) : Prop :=
  forall (j : Z) (r : Row), rows db !! j = Some r -> retryCount r <= maxRetries r.

(** A pattern-blind stand-in for cron-parser that knows "* * * * *": the
    next minute boundary after [now]. *)
Definition next_minute (now : Z) : Z := (now / 60000 + 1) * 60000.

#[local] Instance sample_externals : Externals := {|
  Json := string;
  JSON_stringify := fun s => s;
  JSON_parse := fun s => Some s;
  cron_next := fun p now =>
    if String.eqb p "* * * * *" then Some (next_minute now) else None
|}.

(** A database holding one message, id 1, that may be retried once. *)
Definition retry_fields : Fields :=
  mkFields "test" "{}" pending 0 0 1 None 0 (-1) None.

Definition retry_db : Db := snd (QueueDatabase.addMessage retry_fields 0 empty_db).

(** A database holding one interval message, id 1: every second, at most
    two respawns. *)
Definition interval_fields : Fields :=
  mkFields "test" "{}" pending 0 0 0 (Some 1000) 0 2 None.

Definition interval_db : Db :=
  snd (QueueDatabase.addMessage interval_fields 0 empty_db).

(** A reply the worker's guard accepts for message 1, reporting success. *)
Definition ok_reply : PortMessage :=
  mkPort "processResult" None None (Some 1) (Some true) None.

(** A pass of the loop that begins when the clock reads [t] and in which
    [ok_reply] arrives. *)
Definition pass_at (t : Z) : QueueWorker.Env :=
  QueueWorker.mkEnv t t [ok_reply] (t + 1) (t + 2) (t + 2) (t + 3) (t + 3) (t + 4).




(** A database holding two pending messages: id 1 due at 50, id 2 due at
    20. *)
Definition two_db : Db :=
  let at_ t := mkFields "test" "{}" pending t 0 0 None 0 (-1) None in
  snd (QueueDatabase.addMessage (at_ 20) 0
         (snd (QueueDatabase.addMessage (at_ 50) 0 empty_db))).


(** The columns no UPDATE of database.ts sets. *)
Definition fixed_columns (r : Row)
  : string * string * Z * option Z * Z * Z * option string * Z :=
  (queue r, payload r, maxRetries r, interval r, respawnCount r,
   maxRespawns r, cronPattern r, createdAt r).

(** What holds of every row the API can bring about. *)
Definition reachable_shape (db : Db) : Prop :=
  0 <= sqlite_sequence db
  /\ forall (j : Z) (r : Row), rows db !! j = Some r ->
       status r <> scheduled
       /\ 1 <= j <= sqlite_sequence db
       /\ 0 <= retryCount r
       /\ respawnCount r = 0.

(** [d'] differs from [d] at most in the row of id [i], which is neither
    created nor removed. *)
Definition only_row_changed (i : Z) (d d' : Db) : Prop :=
  sqlite_sequence d' = sqlite_sequence d
  /\ (forall j : Z, j <> i -> rows d' !! j = rows d !! j)
  /\ (rows d' !! i = None <-> rows d !! i = None).


(** [i] is the only id whose row can be claimed. *)
Definition sole_pending (i : Z) (d : Db) : Prop :=
  forall (j : Z) (r : Row), rows d !! j = Some r -> status r = pending -> j = i.

(** Nothing that arrives during the pass is a reply the worker accepts for
    message [i]. *)
Definition unanswered `{Externals} (i : Z) (env : QueueWorker.Env) : Prop :=
  forall m : QueueMessage,
    id m = i -> List.find (QueueWorker.accepts m) (QueueWorker.inbox env) = None.

(** A pass that begins when the clock reads [t] and in which nothing
    arrives on the port. *)
Definition silent_pass `{Externals} (t : Z) : QueueWorker.Env :=
  QueueWorker.mkEnv t t [] (t + 1) (t + 2) (t + 2) (t + 3) (t + 3) (t + 4).

(** A database holding one message, id 1, whose cron pattern the stand-in
    for cron-parser rejects. *)
Definition bad_cron_fields : Fields :=
  mkFields "test" "{}" pending 0 0 0 None 0 (-1) (Some "every now and then").

Definition bad_cron_db : Db :=
  snd (QueueDatabase.addMessage bad_cron_fields 0 empty_db).

(** The id a call acts on, for the calls that finish a message. *)
Definition finishes `{Externals} (c : Call) : option Z :=
  match c with
  | CallComplete i _ | CallFailed i _ | CallReschedule i _ _ => Some i
  | CallAdd _ _ _ | CallGetNext _ _ _ => None
  end.

(** * Properties of the store *)

Example claim_takes_the_older :
  option_map id (fst (QueueDatabase.getNextMessage 0 100 100 two_db)) = Some 2.
Proof. reflexivity. Qed.

Example claim_waits_for_startAt :
  QueueDatabase.getNextMessage 0 10 10 two_db = (None, two_db).
Proof. reflexivity. Qed.

Example claims_in_startAt_order :
  claimed_ids
    (fst (concurrent_claims [(0, 100, 100); (1, 100, 100); (0, 101, 101)] two_db))
  = [2; 1].
Proof. reflexivity. Qed.

Example failure_without_retries_is_final :
  (fun r : Row => (status r, retryCount r))
    <$> rows (call (CallFailed 1 9) interval_db) !! 1
  = Some (failed, 0).
Proof. reflexivity. Qed.

Section StoreFacts.
Import QueueDatabase.

Lemma lookup_update_eq (i : Z) (f : Row -> Row) (db : Db) :
  rows (update_where_id i f db) !! i = f <$> rows db !! i.
Proof. unfold update_where_id; simpl. apply lookup_alter_eq. Qed.

Lemma lookup_update_ne (i j : Z) (f : Row -> Row) (db : Db) :
  j ≠ i -> rows (update_where_id i f db) !! j = rows db !! j.
Proof.
  intros Hne. unfold update_where_id; simpl.
  apply lookup_alter_ne. congruence.
Qed.

Lemma Status_eqb_eq (a b : Status) : Status_eqb a b = true <-> a = b.
Proof. destruct a, b; simpl; split; congruence. Qed.

Lemma eligible_iff (now : Z) (r : Row) :
  eligible now r = true <-> status r = pending /\ startAt r <= now.
Proof.
  unfold eligible. rewrite andb_true_iff, Status_eqb_eq, Z.leb_le. tauto.
Qed.

Lemma earlier_true (a b : Z * Row) :
  earlier a b = true -> startAt (snd a) <= startAt (snd b).
Proof.
  unfold earlier. rewrite orb_true_iff, andb_true_iff.
  rewrite Z.ltb_lt, Z.eqb_eq. lia.
Qed.

Lemma earlier_false (a b : Z * Row) :
  earlier a b = false -> startAt (snd b) <= startAt (snd a).
Proof.
  unfold earlier. rewrite orb_false_iff. intros [Hlt _].
  apply Z.ltb_ge in Hlt. lia.
Qed.

Lemma first_by_startAt_In (l : list (Z * Row)) (x : Z * Row) :
  first_by_startAt l = Some x -> In x l.
Proof.
  revert x. induction l as [|a l IH]; simpl; intros x Hx; [discriminate|].
  destruct (first_by_startAt l) as [y|].
  - destruct (earlier a y); inversion Hx; subst; auto.
  - inversion Hx; auto.
Qed.

Lemma first_by_startAt_None (l : list (Z * Row)) :
  first_by_startAt l = None -> l = [].
Proof.
  destruct l as [|a l]; simpl; [reflexivity|].
  destruct (first_by_startAt l); discriminate.
Qed.

Lemma first_by_startAt_least (l : list (Z * Row)) (x y : Z * Row) :
  first_by_startAt l = Some x -> In y l ->
  startAt (snd x) <= startAt (snd y).
Proof.
  revert x. induction l as [|a l IH]; simpl; intros x Hx Hy; [contradiction|].
  destruct (first_by_startAt l) as [z|] eqn:Hz.
  - destruct (earlier a z) eqn:He; inversion Hx; subst; clear Hx.
    + destruct Hy as [->|Hy]; [lia|].
      apply earlier_true in He. specialize (IH z eq_refl Hy). lia.
    + destruct Hy as [->|Hy]; [by apply earlier_false|].
      by apply IH.
  - apply first_by_startAt_None in Hz. subst l.
    inversion Hx; subst. destruct Hy as [->|[]]. lia.
Qed.

Lemma select_next_Some (now : Z) (db : Db) (i : Z) (r : Row) :
  select_next now db = Some (i, r) ->
  rows db !! i = Some r
  /\ status r = pending /\ startAt r <= now
  /\ (forall (j : Z) (r' : Row), rows db !! j = Some r' ->
        status r' = pending -> startAt r' <= now -> startAt r <= startAt r').
Proof.
  unfold select_next. intros Hsel.
  pose proof (first_by_startAt_In _ _ Hsel) as Hin.
  apply filter_In in Hin as [Hin Hel]. simpl in Hel.
  apply list_elem_of_In, elem_of_map_to_list in Hin.
  apply eligible_iff in Hel as [Hst Hle].
  repeat split; try done.
  intros j r' Hj Hst' Hle'.
  apply (first_by_startAt_least _ _ (j, r') Hsel).
  apply filter_In. split.
  - by apply list_elem_of_In, elem_of_map_to_list.
  - simpl. by apply eligible_iff.
Qed.

Lemma select_next_None (now : Z) (db : Db) :
  select_next now db = None ->
  forall (j : Z) (r : Row), rows db !! j = Some r -> eligible now r = false.
Proof.
  unfold select_next. intros Hsel j r Hj.
  apply first_by_startAt_None in Hsel.
  destruct (eligible now r) eqn:He; [|reflexivity].
  assert (In (j, r)
            (List.filter (fun x => eligible now (snd x)) (map_to_list (rows db))))
    as Hin.
  { apply filter_In. split; [|done].
    by apply list_elem_of_In, elem_of_map_to_list. }
  rewrite Hsel in Hin. destruct Hin.
Qed.

End StoreFacts.

Section ClaimFacts.
Import QueueDatabase.

Lemma getNextMessage_Some (w now stamp : Z) (db db' : Db) (m : QueueMessage) :
  getNextMessage w now stamp db = (Some m, db') ->
  select_next now db = Some (id m, row m)
  /\ db' = update_where_id (id m) (set_status processing stamp) db.
Proof.
  unfold getNextMessage. destruct (select_next now db) as [[i r]|]; [|discriminate].
  intros Heq. inversion Heq; subst. simpl. auto.
Qed.






End ClaimFacts.

(** * The claims *)



Section FailureFacts.
Import QueueDatabase.

Lemma markMessageFailed_Ok (i stamp : Z) (db : Db) (message : Row) :
  select_by_id i db = Some message ->
  markMessageFailed i stamp db
  = Ok (update_where_id i
          (if retryCount message <? maxRetries message
           then set_retry stamp else set_status failed stamp) db).
Proof.
  intros Hsel. unfold markMessageFailed. rewrite Hsel.
  by destruct (retryCount message <? maxRetries message).
Qed.

End FailureFacts.



(** C10: [markMessageFailed] on an id with no stored row throws the
    [TypeError] of reading [retryCount] on [undefined] (it neither returns
    normally nor leaves the call as a no-op); on an id that has a row it
    returns, and a throw happens only in the first case. *)
Theorem markMessageFailed_needs_row (i stamp : Z) (db : Db) :
  (rows db !! i = None ->
     QueueDatabase.markMessageFailed i stamp db = Throw TypeError)
  /\ (forall r : Row, rows db !! i = Some r ->
        exists db' : Db, QueueDatabase.markMessageFailed i stamp db = Ok db')
  /\ (forall e : Exn, QueueDatabase.markMessageFailed i stamp db = Throw e ->
        rows db !! i = None /\ e = TypeError).
Proof.
  unfold QueueDatabase.markMessageFailed, QueueDatabase.select_by_id.
  destruct (rows db !! i) as [r|] eqn:Hi.
  - split; [discriminate|]. split.
    + intros r0 _. destruct (retryCount r <? maxRetries r); eauto.
    + intros e. destruct (retryCount r <? maxRetries r); discriminate.
  - split; [reflexivity|]. split; [discriminate|].
    intros e He. inversion He. auto.
Qed.

Section CompleteFacts.
Import QueueDatabase.

Lemma set_status_twice (st : Status) (stamp1 stamp2 : Z) (r : Row) :
  set_status st stamp2 (set_status st stamp1 r) = set_status st stamp2 r.
Proof. reflexivity. Qed.

Lemma update_where_id_twice (i : Z) (f g : Row -> Row) (db : Db) :
  update_where_id i f (update_where_id i g db)
  = update_where_id i (fun r => f (g r)) db.
Proof.
  unfold update_where_id; simpl. f_equal.
  apply map_eq. intros j. destruct (decide (j = i)) as [->|Hne].
  - rewrite !lookup_alter_eq. by destruct (rows db !! i).
  - rewrite !lookup_alter_ne by congruence. reflexivity.
Qed.

End CompleteFacts.

(** C8, as the code has it: [markMessageComplete] never fails; on a stored
    id it leaves the row 'completed', on an unknown id it changes nothing.
    A second call rewrites [updatedAt] with its own [CURRENT_TIMESTAMP] and
    changes nothing else: two calls leave the database one call at the
    second reading leaves, which is the state after the first call in
    every column but [updatedAt], and the very same state when the two
    readings agree. *)
Theorem markMessageComplete_twice (i stamp1 stamp2 : Z) (db : Db) :
  let once := QueueDatabase.markMessageComplete i stamp1 db in
  let twice := QueueDatabase.markMessageComplete i stamp2 once in
  (forall r : Row, rows db !! i = Some r ->
     exists r' : Row, rows once !! i = Some r' /\ status r' = completed)
  /\ (rows db !! i = None -> once = db)
  /\ twice = QueueDatabase.markMessageComplete i stamp2 db
  /\ (forall j : Z,
        without_updatedAt <$> rows twice !! j
        = without_updatedAt <$> rows once !! j)
  /\ (forall j : Z, j <> i -> rows twice !! j = rows db !! j)
  /\ sqlite_sequence twice = sqlite_sequence db
  /\ QueueDatabase.markMessageComplete i stamp1 once = once.
Proof.
  cbv zeta. unfold QueueDatabase.markMessageComplete.
  split.
  { intros r Hr. eexists. rewrite lookup_update_eq, Hr. simpl. eauto. }
  split.
  { intros Hnone. unfold QueueDatabase.update_where_id. destruct db as [m s].
    simpl in *. f_equal. apply map_eq. intros j.
    destruct (decide (j = i)) as [->|Hne].
    - by rewrite lookup_alter_eq, Hnone.
    - by rewrite lookup_alter_ne by congruence. }
  split.
  { by rewrite update_where_id_twice. }
  split.
  { intros j. destruct (decide (j = i)) as [->|Hne].
    - rewrite !lookup_update_eq. by destruct (rows db !! i).
    - by rewrite !lookup_update_ne by done. }
  split.
  { intros j Hne. by rewrite !lookup_update_ne by done. }
  split; [reflexivity|].
  by rewrite update_where_id_twice.
Qed.

(** C8 as stated fails: a second [markMessageComplete] one clock reading
    later leaves a state other than the one the first call left. *)
Lemma markMessageComplete_twice_not_equal :
  QueueDatabase.markMessageComplete 1 20
    (QueueDatabase.markMessageComplete 1 10 retry_db)
  <> QueueDatabase.markMessageComplete 1 10 retry_db.
Proof.
  intros Heq.
  apply (f_equal (fun d : Db => updatedAt <$> rows d !! 1)) in Heq.
  vm_compute in Heq. discriminate.
Qed.

Section ManagerFacts.
Context `{Externals}.

Lemma or_number_default (x : option Z) (d : Z) :
  or_number x d = d <-> x = None \/ x = Some 0 \/ x = Some d.
Proof.
  unfold or_number. destruct x as [n|].
  - destruct (Z.eqb_spec n 0) as [->|Hn].
    + split; auto.
    + split.
      * intros ->. auto.
      * intros [Hx|[Hx|Hx]]; inversion Hx; congruence.
  - split; auto.
Qed.

Lemma addMessage_stores (options : QueueManager.Options) (now stamp : Z) (db : Db) :
  rows (snd (QueueManager.addMessage options now stamp db))
    !! fst (QueueManager.addMessage options now stamp db)
  = Some (mkRow (QueueManager.new_message options now) stamp stamp).
Proof.
  unfold QueueManager.addMessage, QueueDatabase.addMessage. simpl.
  apply lookup_insert_eq.
Qed.

End ManagerFacts.

(** C9, as the code has it: the row [addMessage] stores carries
    [options.maxRespawns || -1].  Passing 0 stores -1; the stored value is
    -1 exactly when [maxRespawns] is omitted, 0 or -1, so these three are
    indistinguishable at the store; any other number is stored as given. *)
Theorem addMessage_maxRespawns_default `{Externals}
    (options : QueueManager.Options) (now stamp : Z) (db : Db) :
  exists r : Row,
    rows (snd (QueueManager.addMessage options now stamp db))
      !! fst (QueueManager.addMessage options now stamp db) = Some r
    /\ (QueueManager.opt_maxRespawns options = Some 0 -> maxRespawns r = -1)
    /\ (maxRespawns r = -1 <->
          QueueManager.opt_maxRespawns options = None
          \/ QueueManager.opt_maxRespawns options = Some 0
          \/ QueueManager.opt_maxRespawns options = Some (-1))
    /\ (forall n : Z, QueueManager.opt_maxRespawns options = Some n ->
          n <> 0 -> maxRespawns r = n).
Proof.
  eexists. split; [apply addMessage_stores|]. simpl.
  split; [intros ->; reflexivity|].
  split; [apply or_number_default|].
  intros n -> Hn. simpl. destruct (Z.eqb_spec n 0); congruence.
Qed.

(** C9 as stated fails in its "only": an explicit -1 is neither omitted
    nor 0, and the store holds the same row for it. *)
Lemma addMessage_minus_one_same_as_omitted :
  let explicit := QueueManager.mkOptions "q" "{}" None None None (Some (-1)) None in
  let omitted := QueueManager.mkOptions "q" "{}" None None None None None in
  let zero := QueueManager.mkOptions "q" "{}" None None None (Some 0) None in
  QueueManager.opt_maxRespawns explicit <> None
  /\ QueueManager.opt_maxRespawns explicit <> Some 0
  /\ QueueManager.addMessage explicit 5 5 empty_db
     = QueueManager.addMessage omitted 5 5 empty_db
  /\ QueueManager.addMessage explicit 5 5 empty_db
     = QueueManager.addMessage zero 5 5 empty_db.
Proof. cbv zeta. repeat split; discriminate. Qed.

(** C5: the worker's guard does accept a reply only when its [messageId]
    is the claimed message's id, but the request [processMessage] posts
    carries no [messageId]: the manager echoes [data.messageId], which is
    [undefined], so the reply it produces for that request is never
    accepted and [processMessage] ends in its timeout. *)
Theorem dispatch_reply_never_accepted `{Externals}
    (listeners : list (string * QueueManager.MessageHandler))
    (message : QueueMessage) (p : Json) :
  (forall data : PortMessage,
     QueueWorker.accepts message data = true ->
     messageId data = Some (id message))
  /\ messageId (QueueWorker.request message p) = None
  /\ exists reply : PortMessage,
       QueueManager.on_message listeners (QueueWorker.request message p)
       = Some reply
       /\ messageId reply = None
       /\ QueueWorker.accepts message reply = false
       /\ (forall w : QueueWorker.World,
             JSON_parse (payload message) = Some p ->
             fst (QueueWorker.processMessage message [reply] w) = Throw Timeout).
Proof.
  split.
  { intros data Hacc. unfold QueueWorker.accepts in Hacc.
    apply andb_true_iff in Hacc as [_ Hid].
    unfold strict_eq in Hid. destruct (messageId data) as [k|]; [|discriminate].
    apply Z.eqb_eq in Hid. by subst. }
  split; [reflexivity|].
  unfold QueueManager.on_message. simpl.
  destruct (QueueManager.emit listeners
              (QueueManager.event_name (Some (queue message))) (Some p))
    as [msg|];
    (eexists; split; [reflexivity|]; split; [reflexivity|];
     split; [reflexivity|]);
    intros w Hp; unfold QueueWorker.processMessage; rewrite Hp;
    unfold QueueWorker.bind; reflexivity.
Qed.

(** * Properties of the worker *)

(** The branches of [on_success], one case each. *)
Ltac on_success_cases m env :=
  unfold QueueWorker.on_success, QueueWorker.bind,
    QueueWorker.db_markMessageComplete, QueueWorker.handle_interval,
    QueueWorker.handle_cron, QueueWorker.db_rescheduleMessage,
    QueueWorker.ret, QueueWorker.throw;
  simpl;
  destruct (interval m) as [?iv|]; simpl;
  [ destruct (_ =? 0) eqn:?Hzero; simpl;
    [| destruct ((maxRespawns m =? -1) || (respawnCount m <? maxRespawns m))
         eqn:?Hrespawn; simpl ] |];
  (destruct (cronPattern m) as [?p|]; simpl;
   [ destruct (String.eqb _ "") eqn:?Hempty; simpl;
     [| destruct (cron_next _ (QueueWorker.now_cron env)) as [?t|] eqn:?Hnext; simpl ] |]).

Section WorkerFacts.
Context `{Externals}.
Import QueueWorker.


Lemma respawnCount_alter (i j : Z) (f : Row -> Row) (rs : gmap Z Row) :
  (forall r : Row, respawnCount (f r) = respawnCount r) ->
  (fun r : Row => respawnCount r) <$> alter f i rs !! j
  = (fun r : Row => respawnCount r) <$> rs !! j.
Proof.
  intros Hf. destruct (decide (j = i)) as [->|Hne].
  - rewrite lookup_alter_eq. destruct (rs !! i); simpl; by rewrite ?Hf.
  - by rewrite lookup_alter_ne by congruence.
Qed.

Lemma on_success_keeps_respawnCount (m : QueueMessage) (env : Env) (w : World)
    (j : Z) :
  (fun r : Row => respawnCount r) <$> rows (db (snd (on_success m env w))) !! j
  = (fun r : Row => respawnCount r) <$> rows (db w) !! j.
Proof.
  on_success_cases m env;
    rewrite ?respawnCount_alter by (intros; reflexivity); reflexivity.
Qed.

End WorkerFacts.

(** C3: the engine does reschedule an interval message at now + interval,
    but nothing increments [respawnCount]: no step that follows a
    successful run changes that column of any row.  The message of
    [interval_db] ([maxRespawns] 2) is therefore dispatched a fourth time,
    and is pending again with [respawnCount] 0 after it. *)
Theorem interval_respawns_never_counted :
  (forall (E : Externals) (m : QueueMessage) (env : QueueWorker.Env)
      (w : QueueWorker.World) (j : Z),
      (fun r : Row => respawnCount r)
        <$> rows (QueueWorker.db (snd (QueueWorker.on_success m env w))) !! j
      = (fun r : Row => respawnCount r) <$> rows (QueueWorker.db w) !! j)
  /\ (let (res, w) :=
        QueueWorker.start 0 [pass_at 0; pass_at 2000; pass_at 4000; pass_at 6000]
          (QueueWorker.mkWorld interval_db []) in
      res = Ok tt
      /\ length (QueueWorker.posts (QueueWorker.trace w)) = 4%nat
      /\ QueueWorker.reschedules (QueueWorker.trace w)
         = [(1, 1002); (1, 3002); (1, 5002); (1, 7002)]
      /\ (fun r : Row => (status r, respawnCount r, maxRespawns r))
           <$> rows (QueueWorker.db w) !! 1
         = Some (pending, 0, 2)).
Proof.
  split.
  - intros E m env w j. apply on_success_keeps_respawnCount.
  - vm_compute. repeat split.
Qed.









Section LoopFacts.
Context `{Externals}.
Import QueueWorker.

(** A pass whose claim returns [m] and whose dispatch is answered with an
    accepted, error-free reply continues with [on_success m]; a throw in
    there is handed to [markMessageFailed]. *)
Lemma iteration_after_success (workerId : Z) (env : Env) (w : World)
    (m : QueueMessage) (d : Db) (p : Json) (data : PortMessage) :
  QueueDatabase.getNextMessage workerId (now_claim env) (stamp_claim env) (db w)
  = (Some m, d) ->
  JSON_parse (payload m) = Some p ->
  List.find (accepts m) (inbox env) = Some data ->
  truthy_string (error data) = false ->
  iteration workerId env w
  = let w1 := mkWorld d (trace w ++ [GetNextMessage (Some (id m));
                                     Post (request m p)]) in
    match on_success m env w1 with
    | (Ok a, w2) => (Ok a, w2)
    | (Throw _, w2) => db_markMessageFailed (id m) (stamp_failed env) w2
    end.
Proof.
  intros Hget Hparse Hfind Herr.
  unfold iteration, bind at 1, db_getNextMessage. rewrite Hget. simpl.
  unfold try_catch, bind at 1, processMessage. rewrite Hparse.
  unfold bind at 1, emit_event. simpl. rewrite Hfind.
  rewrite <- app_assoc. simpl.
  unfold truthy_string in Herr.
  destruct (error data) as [msg|]; simpl.
  - apply negb_false_iff in Herr. rewrite Herr. reflexivity.
  - reflexivity.
Qed.

(** A pass whose dispatch gets no accepted reply goes to
    [markMessageFailed] without completing or rescheduling anything. *)
Lemma iteration_after_timeout (workerId : Z) (env : Env) (w : World)
    (m : QueueMessage) (d : Db) (p : Json) :
  QueueDatabase.getNextMessage workerId (now_claim env) (stamp_claim env) (db w)
  = (Some m, d) ->
  JSON_parse (payload m) = Some p ->
  List.find (accepts m) (inbox env) = None ->
  iteration workerId env w
  = db_markMessageFailed (id m) (stamp_failed env)
      (mkWorld d (trace w ++ [GetNextMessage (Some (id m));
                              Post (request m p)])).
Proof.
  intros Hget Hparse Hfind.
  unfold iteration, bind at 1, db_getNextMessage. rewrite Hget. simpl.
  unfold try_catch, bind at 1, processMessage. rewrite Hparse.
  unfold bind at 1, emit_event. simpl. rewrite Hfind.
  rewrite <- app_assoc. reflexivity.
Qed.

End LoopFacts.

(** * The store as a whole *)

Section Invariants.
Context `{Externals}.
Import QueueDatabase.

Lemma largest_rowid_bound (db : Db) (j : Z) (r : Row) :
  rows db !! j = Some r -> j <= largest_rowid db.
Proof.
  intros Hj. unfold largest_rowid.
  apply elem_of_map_to_list, list_elem_of_In in Hj.
  induction (map_to_list (rows db)) as [|x l IH]; simpl; [destruct Hj|].
  destruct Hj as [->|Hin]; simpl; [lia|].
  specialize (IH Hin). lia.
Qed.

(** [addMessage] takes a key no row has, and leaves every row in place. *)
Lemma addMessage_fresh (message : Fields) (stamp : Z) (db : Db) :
  rows db !! fst (addMessage message stamp db) = None
  /\ (forall j : Z, j <> fst (addMessage message stamp db) ->
        rows (snd (addMessage message stamp db)) !! j = rows db !! j).
Proof.
  unfold addMessage; simpl. split.
  - destruct (rows db !! _) as [r|] eqn:Hr; [|reflexivity].
    apply largest_rowid_bound in Hr. lia.
  - intros j Hne. apply lookup_insert_ne. congruence.
Qed.

Lemma update_keeps_bound (i : Z) (f : Row -> Row) (db : Db) :
  (forall r : Row, rows db !! i = Some r ->
     retryCount r <= maxRetries r -> retryCount (f r) <= maxRetries (f r)) ->
  retries_bounded db -> retries_bounded (update_where_id i f db).
Proof.
  intros Hf Hinv j r Hj. destruct (decide (j = i)) as [->|Hne].
  - rewrite lookup_update_eq in Hj.
    destruct (rows db !! i) as [r0|] eqn:Hi; [|discriminate].
    inversion Hj; subst r. apply Hf; [reflexivity|]. by apply (Hinv i).
  - rewrite lookup_update_ne in Hj by done. by apply (Hinv j).
Qed.

Lemma call_keeps_bound (c : Call) (db : Db) :
  sane_call c -> retries_bounded db -> retries_bounded (call c db).
Proof.
  intros Hsane Hinv. destruct c as [options now stamp| w now stamp | i stamp
                                   | i stamp | i t stamp]; simpl.
  - intros j r Hj.
    destruct (decide (j = Z.max (sqlite_sequence db) (largest_rowid db) + 1))
      as [->|Hne]; cbn [rows] in Hj.
    + rewrite lookup_insert_eq in Hj.
      inversion Hj; subst r. simpl. simpl in Hsane. unfold or_number.
      destruct (QueueManager.opt_maxRetries options) as [n|]; [|lia].
      destruct (Z.eqb_spec n 0); lia.
    + rewrite lookup_insert_ne in Hj by congruence.
      by apply (Hinv j).
  - unfold getNextMessage. destruct (select_next now db) as [[i r]|]; simpl.
    + apply update_keeps_bound; [|exact Hinv]. intros r0 _ Hle. exact Hle.
    + exact Hinv.
  - apply update_keeps_bound; [|exact Hinv]. intros r0 _ Hle. exact Hle.
  - unfold markMessageFailed, select_by_id.
    destruct (rows db !! i) as [message|] eqn:Hi; [|exact Hinv].
    destruct (retryCount message <? maxRetries message) eqn:Hlt.
    + apply update_keeps_bound; [|exact Hinv].
      intros r0 Hr0 _. rewrite Hi in Hr0. inversion Hr0; subst r0.
      apply Z.ltb_lt in Hlt. simpl. lia.
    + apply update_keeps_bound; [|exact Hinv]. intros r0 _ Hle. exact Hle.
  - apply update_keeps_bound; [|exact Hinv]. intros r0 _ Hle. exact Hle.
Qed.

(** Whatever producers and workers call, in whatever order: every stored
    [retryCount] is within its [maxRetries]. *)
Lemma retries_bounded_always (cs : list Call) :
  Forall sane_call cs -> retries_bounded (calls cs empty_db).
Proof.
  assert (forall db, Forall sane_call cs -> retries_bounded db ->
                     retries_bounded (calls cs db)) as Hgen.
  { induction cs as [|c cs IH]; intros db Hs Hinv; simpl; [exact Hinv|].
    inversion Hs; subst. apply IH; [assumption|]. by apply call_keeps_bound. }
  intros Hs. apply Hgen; [exact Hs|].
  intros j r Hj. unfold empty_db in Hj. simpl in Hj.
  rewrite lookup_empty in Hj. discriminate.
Qed.

End Invariants.

(** * Further properties of the store *)

Section InsertFacts.
Context `{Externals}.
Import QueueDatabase.

Lemma call_sequence_grows (c : Call) (db : Db) :
  sqlite_sequence db <= sqlite_sequence (call c db).
Proof.
  destruct c as [options now stamp| w now stamp | i stamp | i stamp
                | i t stamp]; unfold call.
  - unfold QueueManager.addMessage, addMessage. cbn [snd sqlite_sequence]. lia.
  - unfold getNextMessage. destruct (select_next now db) as [[i r]|]; simpl; lia.
  - simpl. lia.
  - unfold markMessageFailed. destruct (select_by_id i db) as [m|]; [|lia].
    destruct (retryCount m <? maxRetries m); simpl; lia.
  - simpl. lia.
Qed.

Lemma calls_sequence_grows (cs : list Call) (db : Db) :
  sqlite_sequence db <= sqlite_sequence (calls cs db).
Proof.
  revert db. induction cs as [|c cs IH]; intros db; [simpl; lia|].
  change (calls (c :: cs) db) with (calls cs (call c db)).
  pose proof (call_sequence_grows c db). specialize (IH (call c db)). lia.
Qed.

End InsertFacts.

(** X1: [addMessage] stores the message under an id no row had, above
    every id in the table and above the AUTOINCREMENT counter; the new row
    reads back as given, with both timestamps set to the time of the
    insert, and every other row is as before. *)
Theorem addMessage_inserts_fresh_row (message : Fields) (stamp : Z) (db : Db) :
  let i := fst (QueueDatabase.addMessage message stamp db) in
  let db' := snd (QueueDatabase.addMessage message stamp db) in
  rows db !! i = None
  /\ rows db' !! i = Some (mkRow message stamp stamp)
  /\ (forall j : Z, j <> i -> rows db' !! j = rows db !! j)
  /\ (forall (j : Z) (r : Row), rows db !! j = Some r -> j < i)
  /\ sqlite_sequence db < i
  /\ sqlite_sequence db' = i.
Proof.
  cbv zeta. unfold QueueDatabase.addMessage; simpl.
  assert (forall (j : Z) (r : Row), rows db !! j = Some r ->
            j < Z.max (sqlite_sequence db) (QueueDatabase.largest_rowid db) + 1)
    as Habove.
  { intros j r Hj. apply largest_rowid_bound in Hj. lia. }
  split.
  { destruct (rows db !! _) as [r|] eqn:Hr; [|reflexivity].
    apply Habove in Hr. lia. }
  split; [apply lookup_insert_eq|].
  split; [intros j Hne; apply lookup_insert_ne; congruence|].
  split; [exact Habove|]. split; [lia|reflexivity].
Qed.

(** X2: ids are never reused: whatever calls are made on the store after
    an insert, a later [addMessage] returns a strictly larger id. *)
Theorem addMessage_ids_increase `{Externals} (m1 m2 : Fields) (stamp1 stamp2 : Z)
    (cs : list Call) (db : Db) :
  let i1 := fst (QueueDatabase.addMessage m1 stamp1 db) in
  let db1 := snd (QueueDatabase.addMessage m1 stamp1 db) in
  i1 < fst (QueueDatabase.addMessage m2 stamp2 (calls cs db1)).
Proof.
  cbv zeta.
  pose proof (calls_sequence_grows cs
                (snd (QueueDatabase.addMessage m1 stamp1 db))) as Hgrow.
  unfold QueueDatabase.addMessage at 2 in Hgrow. simpl in Hgrow.
  unfold QueueDatabase.addMessage at 1 3. simpl.
  unfold QueueDatabase.addMessage. simpl. lia.
Qed.

Section OrderFacts.
Import QueueDatabase.



End OrderFacts.


Section ColumnFacts.
Context `{Externals}.
Import QueueDatabase.

Lemma update_keeps_fixed_columns (k j : Z) (f : Row -> Row) (db : Db) (r : Row) :
  (forall r0 : Row, fixed_columns (f r0) = fixed_columns r0) ->
  rows db !! j = Some r ->
  exists r' : Row,
    rows (update_where_id k f db) !! j = Some r'
    /\ fixed_columns r' = fixed_columns r.
Proof.
  intros Hf Hj. destruct (decide (j = k)) as [->|Hne].
  - exists (f r). rewrite lookup_update_eq, Hj. auto.
  - exists r. by rewrite lookup_update_ne.
Qed.

Lemma call_keeps_fixed_columns (c : Call) (db : Db) (j : Z) (r : Row) :
  rows db !! j = Some r ->
  exists r' : Row,
    rows (call c db) !! j = Some r' /\ fixed_columns r' = fixed_columns r.
Proof.
  intros Hj. destruct c as [options now stamp| w now stamp | i stamp | i stamp
                           | i t stamp]; unfold call.
  - exists r. split; [|reflexivity].
    unfold QueueManager.addMessage, addMessage. cbn [snd rows].
    rewrite lookup_insert_ne; [exact Hj|].
    apply largest_rowid_bound in Hj. lia.
  - unfold getNextMessage. destruct (select_next now db) as [[i r0]|]; simpl.
    + by apply update_keeps_fixed_columns.
    + eauto.
  - by apply update_keeps_fixed_columns.
  - unfold markMessageFailed. destruct (select_by_id i db) as [m|]; [|eauto].
    destruct (retryCount m <? maxRetries m);
      by apply update_keeps_fixed_columns.
  - by apply update_keeps_fixed_columns.
Qed.

Lemma call_keeps_shape (c : Call) (db : Db) :
  reachable_shape db -> reachable_shape (call c db).
Proof.
  intros [Hseq Hinv].
  assert (forall (k : Z) (f : Row -> Row),
            (forall r0 : Row,
                status r0 <> scheduled -> 0 <= retryCount r0 ->
                respawnCount r0 = 0 ->
                status (f r0) <> scheduled /\ 0 <= retryCount (f r0)
                /\ respawnCount (f r0) = 0) ->
            reachable_shape (update_where_id k f db)) as Hupd.
  { intros k f Hf. split; [exact Hseq|]. intros j r Hj. simpl.
    destruct (decide (j = k)) as [->|Hne].
    - rewrite lookup_update_eq in Hj.
      destruct (rows db !! k) as [r0|] eqn:Hk; [|discriminate].
      inversion Hj; subst r. destruct (Hinv k r0 Hk) as (H1 & H2 & H3 & H4).
      destruct (Hf r0 H1 H3 H4) as (H5 & H6 & H7). auto.
    - rewrite lookup_update_ne in Hj by done. by apply Hinv. }
  destruct c as [options now stamp| w now stamp | i stamp | i stamp
                | i t stamp]; unfold call.
  - unfold QueueManager.addMessage, addMessage. cbn [snd].
    split; [cbn [sqlite_sequence]; lia|].
    intros j r Hj. cbn [rows sqlite_sequence] in *.
    destruct (decide
                (j = Z.max (sqlite_sequence db) (largest_rowid db) + 1))
      as [->|Hne].
    + rewrite lookup_insert_eq in Hj. inversion Hj; subst r. simpl.
      repeat split; try discriminate; lia.
    + rewrite lookup_insert_ne in Hj by congruence.
      destruct (Hinv j r Hj) as (H1 & H2 & H3 & H4).
      repeat split; try assumption; lia.
  - unfold getNextMessage. destruct (select_next now db) as [[i r0]|]; simpl.
    + apply Hupd. intros r1 _ H3 H4. simpl. repeat split; auto; discriminate.
    + split; assumption.
  - apply Hupd. intros r1 _ H3 H4. simpl. repeat split; auto; discriminate.
  - unfold markMessageFailed. destruct (select_by_id i db) as [m|];
      [|split; assumption].
    destruct (retryCount m <? maxRetries m); apply Hupd;
      intros r1 _ H3 H4; simpl; repeat split; auto; try discriminate; lia.
  - apply Hupd. intros r1 _ H3 H4. simpl. repeat split; auto; discriminate.
Qed.

End ColumnFacts.

(** X4: no call on the store deletes a message or changes what it is: a
    stored id stays stored through any sequence of calls, with its queue,
    payload, [maxRetries], interval, [respawnCount], [maxRespawns], cron
    pattern and [createdAt] as they were. *)
Theorem calls_keep_fixed_columns `{Externals} (cs : list Call) (db : Db)
    (j : Z) (r : Row) :
  rows db !! j = Some r ->
  exists r' : Row,
    rows (calls cs db) !! j = Some r' /\ fixed_columns r' = fixed_columns r.
Proof.
  revert db r. induction cs as [|c cs IH]; intros db r Hj; [eauto|].
  change (calls (c :: cs) db) with (calls cs (call c db)).
  destruct (call_keeps_fixed_columns c db j r Hj) as (r1 & Hj1 & Hfix1).
  destruct (IH _ _ Hj1) as (r2 & Hj2 & Hfix2).
  exists r2. split; [exact Hj2|congruence].
Qed.

(** The message of [retry_db] through a claim, a failure and a reschedule. *)
Lemma calls_keep_fixed_columns_witness :
  exists r' : Row,
    rows (calls [CallGetNext 0 5 5; CallFailed 1 6; CallReschedule 1 90 7]
            retry_db) !! 1 = Some r'
    /\ fixed_columns r' = fixed_columns (mkRow retry_fields 0 0).
Proof.
  exact (calls_keep_fixed_columns
           [CallGetNext 0 5 5; CallFailed 1 6; CallReschedule 1 90 7]
           retry_db 1 (mkRow retry_fields 0 0) eq_refl).
Defined.

(** X5: in a database built from nothing by the manager's [addMessage] and
    the store's operations, in any order, no row ever has the status
    'scheduled', every id lies between 1 and the AUTOINCREMENT counter,
    [retryCount] is never negative and [respawnCount] is always 0. *)
Theorem reachable_rows_shape `{Externals} (cs : list Call) :
  reachable_shape (calls cs empty_db).
Proof.
  assert (forall db, reachable_shape db -> reachable_shape (calls cs db))
    as Hgen.
  { induction cs as [|c cs IH]; intros db Hdb; [exact Hdb|].
    change (calls (c :: cs) db) with (calls cs (call c db)).
    apply IH. by apply call_keeps_shape. }
  apply Hgen. split; [simpl; lia|].
  intros j r Hj. simpl in Hj. rewrite lookup_empty in Hj. discriminate.
Qed.


(** * Further properties of the worker *)

Section PassFacts.
Context `{Externals}.
Import QueueWorker.

Lemma only_row_changed_refl (i : Z) (d : Db) : only_row_changed i d d.
Proof. repeat split; auto. Qed.

Lemma only_row_changed_trans (i : Z) (d1 d2 d3 : Db) :
  only_row_changed i d1 d2 -> only_row_changed i d2 d3 ->
  only_row_changed i d1 d3.
Proof.
  intros (Hs1 & Ho1 & Hn1) (Hs2 & Ho2 & Hn2). split; [congruence|]. split.
  - intros j Hj. rewrite Ho2, Ho1; auto.
  - tauto.
Qed.

Lemma update_only_row_changed (i : Z) (f : Row -> Row) (d : Db) :
  only_row_changed i d (QueueDatabase.update_where_id i f d).
Proof.
  split; [reflexivity|]. split.
  - intros j Hj. by apply lookup_update_ne.
  - rewrite lookup_update_eq. destruct (rows d !! i); simpl; split; congruence.
Qed.

(** [processMessage] does not touch the database. *)
Lemma processMessage_keeps_db (m : QueueMessage) (inbox : list PortMessage)
    (w : World) :
  db (snd (processMessage m inbox w)) = db w.
Proof.
  unfold processMessage. destruct (JSON_parse (payload m)) as [p|]; [|reflexivity].
  unfold bind, emit_event. simpl.
  destruct (List.find (accepts m) inbox) as [data|]; [|reflexivity].
  destruct (error data) as [msg|]; [|reflexivity].
  destruct (String.eqb msg ""); reflexivity.
Qed.

(** [on_success] changes the claimed row only; if it returns, that row is
    'completed' or 'pending'. *)
Lemma on_success_row (m : QueueMessage) (env : Env) (w : World) :
  only_row_changed (id m) (db w) (db (snd (on_success m env w)))
  /\ (forall r : Row, rows (db w) !! id m = Some r ->
        exists r' : Row,
          rows (db (snd (on_success m env w))) !! id m = Some r'
          /\ retryCount r' = retryCount r /\ maxRetries r' = maxRetries r
          /\ (fst (on_success m env w) = Ok tt ->
              status r' = completed \/ status r' = pending)).
Proof.
  on_success_cases m env;
    (split;
     [ repeat (eapply only_row_changed_trans;
               [|apply (update_only_row_changed (id m))]);
       apply only_row_changed_refl
     | intros r Hr; rewrite ?lookup_alter_eq, Hr; simpl;
       eexists; split; [reflexivity|]; simpl;
       repeat split; auto; try discriminate ]).
Qed.


Lemma try_catch_bind {A : Type} (pm : M unit) (os : M A) (h : Exn -> M A)
    (w : World) :
  try_catch (bind pm (fun _ => os)) h w
  = match pm w with
    | (Ok _, w2) =>
        match os w2 with
        | (Ok a, w3) => (Ok a, w3)
        | (Throw e, w3) => h e w3
        end
    | (Throw e, w2) => h e w2
    end.
Proof.
  unfold try_catch, bind. destruct (pm w) as [[a|e] w2]; reflexivity.
Qed.





End PassFacts.


Section RetryFacts.
Context `{Externals}.
Import QueueWorker.

Lemma posts_app (t1 t2 : list Event) :
  posts (t1 ++ t2) = posts t1 ++ posts t2.
Proof.
  induction t1 as [|e t1 IH]; simpl; [reflexivity|].
  destruct e; simpl; by rewrite ?IH.
Qed.

Lemma select_next_sole (now i : Z) (d : Db) (r : Row) :
  sole_pending i d -> rows d !! i = Some r ->
  status r = pending -> startAt r <= now ->
  QueueDatabase.select_next now d = Some (i, r).
Proof.
  intros Hsole Hi Hst Hdue.
  destruct (QueueDatabase.select_next now d) as [[j r']|] eqn:Hsel.
  - apply select_next_Some in Hsel as (Hj & Hst' & _).
    assert (j = i) as -> by (eapply Hsole; eauto).
    rewrite Hi in Hj. by inversion Hj.
  - pose proof (select_next_None now d Hsel i r Hi) as Hno.
    assert (QueueDatabase.eligible now r = true) by (by apply eligible_iff).
    congruence.
Qed.

Lemma select_next_no_pending (now : Z) (d : Db) :
  (forall (j : Z) (r : Row), rows d !! j = Some r -> status r <> pending) ->
  QueueDatabase.select_next now d = None.
Proof.
  intros Hno. destruct (QueueDatabase.select_next now d) as [[j r]|] eqn:Hsel;
    [|reflexivity].
  apply select_next_Some in Hsel as (Hj & Hst & _).
  by destruct (Hno j r Hj).
Qed.

(** With nothing pending the loop only polls. *)
Lemma start_idle (workerId : Z) (envs : list Env) (w : World) :
  (forall (j : Z) (r : Row), rows (db w) !! j = Some r -> status r <> pending) ->
  exists w' : World,
    start workerId envs w = (Ok tt, w')
    /\ db w' = db w /\ posts (trace w') = posts (trace w).
Proof.
  revert w. induction envs as [|env envs IH]; intros w Hno; simpl; [eauto|].
  unfold bind at 1, iteration, bind at 1, db_getNextMessage,
    QueueDatabase.getNextMessage.
  rewrite (select_next_no_pending _ _ Hno). simpl.
  destruct (IH (mkWorld (db w) (trace w ++ [GetNextMessage None])) Hno)
    as (w' & Hrun & Hdb & Hposts).
  exists w'. split; [exact Hrun|]. split; [exact Hdb|].
  rewrite Hposts. simpl. rewrite posts_app. simpl. apply app_nil_r.
Qed.

(** A pass in which the only claimable message is due and gets no reply:
    it is claimed, dispatched once and handed to [markMessageFailed]. *)
Lemma iteration_unanswered (workerId : Z) (env : Env) (w : World) (i : Z)
    (r : Row) (p : Json) :
  rows (db w) !! i = Some r -> status r = pending -> sole_pending i (db w) ->
  JSON_parse (payload r) = Some p ->
  startAt r <= now_claim env -> unanswered i env ->
  iteration workerId env w
  = (Ok tt,
     mkWorld
       (QueueDatabase.update_where_id i
          (fun r0 : Row =>
             (if retryCount r <? maxRetries r
              then QueueDatabase.set_retry (stamp_failed env)
              else QueueDatabase.set_status failed (stamp_failed env))
               (QueueDatabase.set_status processing (stamp_claim env) r0))
          (db w))
       (trace w ++ [GetNextMessage (Some i); Post (request (mkMessage i r) p);
                    MarkFailed i])).
Proof.
  intros Hi Hst Hsole Hp Hdue Hun.
  assert (QueueDatabase.getNextMessage workerId (now_claim env)
            (stamp_claim env) (db w)
          = (Some (mkMessage i r),
             QueueDatabase.update_where_id i
               (QueueDatabase.set_status processing (stamp_claim env)) (db w)))
    as Hget.
  { unfold QueueDatabase.getNextMessage.
    by rewrite (select_next_sole _ i _ r Hsole Hi Hst Hdue). }
  rewrite (iteration_after_timeout workerId env w (mkMessage i r) _ p Hget Hp
             (Hun (mkMessage i r) eq_refl)).
  unfold db_markMessageFailed. cbn [db trace id].
  erewrite markMessageFailed_Ok;
    [|unfold QueueDatabase.select_by_id; rewrite lookup_update_eq, Hi;
      reflexivity].
  cbn [retryCount maxRetries fields QueueDatabase.set_status].
  rewrite update_where_id_twice, <- app_assoc. reflexivity.
Qed.

End RetryFacts.

(** X8: a message that can be retried [k] more times and whose dispatch is
    never answered is dispatched once per pass for [k + 1] passes and no
    more: every unanswered pass adds one to [retryCount] until it reaches
    [maxRetries], the pass after that leaves the message 'failed', and
    from then on the loop only polls.  [startAt] is never moved: a retry
    is due at once. *)
Theorem retries_then_fails_for_good `{Externals} (workerId : Z)
    (envs : list QueueWorker.Env) (w : QueueWorker.World) (i : Z) (r : Row)
    (p : Json) (k : nat) :
  rows (QueueWorker.db w) !! i = Some r ->
  status r = pending ->
  sole_pending i (QueueWorker.db w) ->
  maxRetries r = retryCount r + Z.of_nat k ->
  JSON_parse (payload r) = Some p ->
  Forall (fun env => startAt r <= QueueWorker.now_claim env /\ unanswered i env)
    envs ->
  exists (w' : QueueWorker.World) (r' : Row),
    QueueWorker.start workerId envs w = (Ok tt, w')
    /\ length (QueueWorker.posts (QueueWorker.trace w'))
       = (length (QueueWorker.posts (QueueWorker.trace w))
          + Nat.min (length envs) (S k))%nat
    /\ rows (QueueWorker.db w') !! i = Some r'
    /\ retryCount r' = retryCount r + Z.of_nat (Nat.min (length envs) k)
    /\ status r' = (if (length envs <=? k)%nat then pending else failed)
    /\ startAt r' = startAt r.
Proof.
  revert w r k. induction envs as [|env envs IH];
    intros w r k Hi Hst Hsole Hmax Hp Henvs.
  - exists w, r. simpl. repeat split; auto; lia.
  - inversion Henvs as [|env0 envs0 [Hdue Hun] Hrest]; subst.
    simpl. unfold QueueWorker.bind at 1.
    rewrite (iteration_unanswered workerId env w i r p Hi Hst Hsole Hp Hdue Hun).
    set (f := fun r0 : Row =>
                (if retryCount r <? maxRetries r
                 then QueueDatabase.set_retry (QueueWorker.stamp_failed env)
                 else QueueDatabase.set_status failed (QueueWorker.stamp_failed env))
                  (QueueDatabase.set_status processing
                     (QueueWorker.stamp_claim env) r0)).
    set (w1 := QueueWorker.mkWorld _ _).
    assert (rows (QueueWorker.db w1) !! i = Some (f r)) as Hi1
      by (unfold w1; cbn [QueueWorker.db]; rewrite lookup_update_eq, Hi;
          reflexivity).
    assert (forall j : Z, j <> i ->
              rows (QueueWorker.db w1) !! j = rows (QueueWorker.db w) !! j)
      as Hother
      by (intros j Hj; unfold w1; cbn [QueueWorker.db];
          by apply lookup_update_ne).
    assert (length (QueueWorker.posts (QueueWorker.trace w1))
            = S (length (QueueWorker.posts (QueueWorker.trace w)))) as Hposts.
    { unfold w1. cbn [QueueWorker.trace]. rewrite posts_app. simpl.
      rewrite length_app. simpl. lia. }
    destruct k as [|k].
    + assert ((retryCount r <? maxRetries r) = false) as Hlt
        by (apply Z.ltb_ge; lia).
      assert (status (f r) = failed /\ retryCount (f r) = retryCount r
              /\ startAt (f r) = startAt r) as (Hst1 & Hrc1 & Hsa1)
        by (unfold f; rewrite Hlt; simpl; auto).
      destruct (start_idle workerId envs w1) as (w' & Hrun & Hdb & Hsame).
      { intros j r0 Hj Hpend. destruct (decide (j = i)) as [->|Hne].
        - rewrite Hi1 in Hj. inversion Hj; subst r0. congruence.
        - rewrite Hother in Hj by done. destruct Hne. by eapply Hsole. }
      exists w', (f r). split; [exact Hrun|].
      rewrite Hsame, Hposts, Hdb.
      repeat split; auto; lia.
    + assert ((retryCount r <? maxRetries r) = true) as Hlt
        by (apply Z.ltb_lt; lia).
      assert (status (f r) = pending /\ retryCount (f r) = retryCount r + 1
              /\ startAt (f r) = startAt r /\ maxRetries (f r) = maxRetries r
              /\ payload (f r) = payload r)
        as (Hst1 & Hrc1 & Hsa1 & Hmr1 & Hpl1)
        by (unfold f; rewrite Hlt; simpl; auto).
      destruct (IH w1 (f r) k Hi1 Hst1) as (w' & r' & Hrun & Hlen & Hi' & Hrc' & Hst' & Hsa').
      * intros j r0 Hj Hpend. destruct (decide (j = i)) as [->|Hne]; [done|].
        rewrite Hother in Hj by done. by eapply Hsole.
      * lia.
      * by rewrite Hpl1.
      * rewrite Hsa1. exact Hrest.
      * exists w', r'. split; [exact Hrun|].
        split; [rewrite Hlen, Hposts; simpl; lia|].
        split; [exact Hi'|].
        split; [rewrite Hrc', Hrc1; simpl Nat.min; lia|].
        split; [exact Hst'|congruence].
Qed.

(** The message of [retry_db] (one retry allowed) over three silent
    passes: two dispatches, then 'failed'. *)
Lemma retries_then_fails_for_good_witness :
  exists (w' : QueueWorker.World) (r' : Row),
    QueueWorker.start 0 [silent_pass 10; silent_pass 200; silent_pass 400]
      (QueueWorker.mkWorld retry_db []) = (Ok tt, w')
    /\ length (QueueWorker.posts (QueueWorker.trace w')) = 2%nat
    /\ rows (QueueWorker.db w') !! 1 = Some r'
    /\ retryCount r' = 1
    /\ status r' = failed.
Proof.
  destruct (retries_then_fails_for_good (H := sample_externals) 0
              [silent_pass 10; silent_pass 200; silent_pass 400]
              (QueueWorker.mkWorld retry_db []) 1 (mkRow retry_fields 0 0)
              ("{}" : @Json sample_externals) 1%nat)
    as (w' & r' & Hrun & Hlen & Hrow & Hrc & Hst & _).
  - reflexivity.
  - reflexivity.
  - intros j r Hj _. destruct (decide (j = 1)) as [->|Hne]; [reflexivity|].
    unfold retry_db, QueueDatabase.addMessage in Hj. simpl in Hj.
    rewrite lookup_insert_ne in Hj by (vm_compute; congruence).
    rewrite lookup_empty in Hj. discriminate.
  - reflexivity.
  - reflexivity.
  - repeat constructor; simpl; lia.
  - exists w', r'. repeat split; assumption.
Defined.

(** * The dispatch channel *)

Section DispatchFacts.
Context `{Externals}.
Import QueueWorker.

Lemma find_skips (m : QueueMessage) (junk rest : list PortMessage) :
  Forall (fun d => accepts m d = false) junk ->
  List.find (accepts m) (junk ++ rest) = List.find (accepts m) rest.
Proof.
  induction junk as [|d junk IH]; intros Hjunk; [reflexivity|].
  inversion Hjunk as [|d0 junk0 Hd Hrest]; subst. simpl. rewrite Hd. auto.
Qed.

Lemma event_name_inj (q q' : string) :
  QueueManager.event_name (Some q) = QueueManager.event_name (Some q') -> q = q'.
Proof. unfold QueueManager.event_name. simpl. intros Heq. by inversion Heq. Qed.

Lemma emit_app (l1 l2 : list (string * QueueManager.MessageHandler))
    (e : string) (p : option Json) :
  QueueManager.emit (l1 ++ l2) e p
  = match QueueManager.emit l1 e p with
    | Some msg => Some msg
    | None => QueueManager.emit l2 e p
    end.
Proof.
  induction l1 as [|[e1 h1] l1 IH]; simpl; [reflexivity|].
  destruct (String.eqb e1 e); [|exact IH].
  destruct (h1 p); [reflexivity|exact IH].
Qed.

Lemma emit_single (e e' : string) (h : QueueManager.MessageHandler)
    (p : option Json) :
  QueueManager.emit [(e, h)] e' p = if String.eqb e e' then h p else None.
Proof. simpl. destruct (String.eqb e e'); [|reflexivity]. by destruct (h p). Qed.

End DispatchFacts.

(** X9: [processMessage] is decided by the first message on the port that
    is a "processResult" for the claimed id: everything before it that is
    not one is ignored, and so is everything after it.  It resolves when
    that reply has no [error] or an empty one, and rejects with the error
    otherwise; with no such reply it rejects with the timeout.  In all
    these cases exactly one request was posted; when the stored payload is
    not JSON it rejects without posting anything. *)
Theorem processMessage_first_accepted_reply `{Externals} (m : QueueMessage)
    (w : QueueWorker.World) :
  (JSON_parse (payload m) = None ->
     forall inbox : list PortMessage,
       QueueWorker.processMessage m inbox w = (Throw SyntaxError, w))
  /\ (forall (p : Json) (inbox : list PortMessage),
        JSON_parse (payload m) = Some p ->
        snd (QueueWorker.processMessage m inbox w)
        = QueueWorker.mkWorld (QueueWorker.db w)
            (QueueWorker.trace w ++ [QueueWorker.Post (QueueWorker.request m p)]))
  /\ (forall (p : Json) (junk : list PortMessage),
        JSON_parse (payload m) = Some p ->
        Forall (fun d => QueueWorker.accepts m d = false) junk ->
        fst (QueueWorker.processMessage m junk w) = Throw Timeout)
  /\ (forall (p : Json) (junk rest : list PortMessage) (data : PortMessage),
        JSON_parse (payload m) = Some p ->
        Forall (fun d => QueueWorker.accepts m d = false) junk ->
        QueueWorker.accepts m data = true ->
        fst (QueueWorker.processMessage m (junk ++ data :: rest) w)
        = match error data with
          | Some msg =>
              if String.eqb msg "" then Ok tt else Throw (HandlerError msg)
          | None => Ok tt
          end).
Proof.
  unfold QueueWorker.processMessage.
  split; [intros Hp inbox; by rewrite Hp|].
  split.
  { intros p inbox Hp. rewrite Hp. unfold QueueWorker.bind, QueueWorker.emit_event.
    simpl. destruct (List.find (QueueWorker.accepts m) inbox) as [data|];
      [|reflexivity].
    destruct (error data) as [msg|]; [|reflexivity].
    destruct (String.eqb msg ""); reflexivity. }
  split.
  { intros p junk Hp Hjunk. rewrite Hp.
    unfold QueueWorker.bind, QueueWorker.emit_event. simpl.
    rewrite <- (app_nil_r junk), (find_skips m junk [] Hjunk). reflexivity. }
  intros p junk rest data Hp Hjunk Hacc. rewrite Hp.
  unfold QueueWorker.bind, QueueWorker.emit_event. simpl.
  rewrite (find_skips m junk _ Hjunk). simpl. rewrite Hacc.
  destruct (error data) as [msg|]; [|reflexivity].
  destruct (String.eqb msg ""); reflexivity.
Qed.

(** X10: the manager answers a "process" message, and nothing else, with
    one "processResult" that echoes the [messageId] it was given; the
    worker's guard accepts that reply exactly when the request carried the
    claimed message's id.  The reply reports success exactly when no
    listener of the queue threw, so also when the queue has no listener at
    all. *)
Theorem manager_reply_echoes_messageId `{Externals}
    (listeners : list (string * QueueManager.MessageHandler))
    (data : PortMessage) (m : QueueMessage) :
  (type data <> "process" -> QueueManager.on_message listeners data = None)
  /\ (type data = "process" ->
      exists reply : PortMessage,
        QueueManager.on_message listeners data = Some reply
        /\ type reply = "processResult"
        /\ messageId reply = messageId data
        /\ (QueueWorker.accepts m reply = true <-> messageId data = Some (id m))
        /\ error reply
           = QueueManager.emit listeners
               (QueueManager.event_name (port_queue data)) (port_payload data)
        /\ (result reply = Some true <-> error reply = None)
        /\ (listeners = [] -> result reply = Some true)).
Proof.
  unfold QueueManager.on_message. split.
  - intros Hne. apply String.eqb_neq in Hne. by rewrite Hne.
  - intros Heq. apply String.eqb_eq in Heq. rewrite Heq.
    assert (forall reply : PortMessage,
              type reply = "processResult" ->
              messageId reply = messageId data ->
              QueueWorker.accepts m reply = true <-> messageId data = Some (id m))
      as Hguard.
    { intros reply Hty Hid. unfold QueueWorker.accepts, strict_eq.
      rewrite Hty, Hid. simpl.
      destruct (messageId data) as [k|]; [|split; discriminate].
      rewrite Z.eqb_eq. split; congruence. }
    destruct (QueueManager.emit listeners _ _) as [msg|] eqn:Hemit;
      (eexists; split; [reflexivity|]; simpl;
       split; [reflexivity|]; split; [reflexivity|];
       split; [by apply Hguard|]; split; [reflexivity|]).
    + split; [split; discriminate|].
      intros ->. simpl in Hemit. discriminate.
    + split; [tauto|reflexivity].
Qed.

(** X11: queues are isolated and listeners run in registration order: a
    listener added for one queue leaves what [emitQueueEvent] does for
    every other queue unchanged, and for its own queue it runs after the
    listeners already there, and only if none of them threw. *)
Theorem addQueueListener_reaches_its_queue `{Externals}
    (listeners : list (string * QueueManager.MessageHandler))
    (q q' : string) (h : QueueManager.MessageHandler) (p : option Json) :
  QueueEventEmitter.emitQueueEvent
    (QueueEventEmitter.addQueueListener q h listeners) q p
  = match QueueEventEmitter.emitQueueEvent listeners q p with
    | Some msg => Some msg
    | None => h p
    end
  /\ (q' <> q ->
      QueueEventEmitter.emitQueueEvent
        (QueueEventEmitter.addQueueListener q h listeners) q' p
      = QueueEventEmitter.emitQueueEvent listeners q' p).
Proof.
  unfold QueueEventEmitter.emitQueueEvent, QueueEventEmitter.addQueueListener.
  rewrite !emit_app, !emit_single. split.
  - rewrite String.eqb_refl. reflexivity.
  - intros Hne.
    destruct (String.eqb_spec (QueueManager.event_name (Some q))
                (QueueManager.event_name (Some q'))) as [Heq|_].
    + apply event_name_inj in Heq. congruence.
    + by destruct (QueueManager.emit listeners _ p).
Qed.

(** * Passes of the loop, case by case *)

Section OutcomeFacts.
Context `{Externals}.
Import QueueWorker.

Lemma db_markMessageFailed_exact (i stamp : Z) (w : World) (r : Row) :
  rows (db w) !! i = Some r ->
  db_markMessageFailed i stamp w
  = (Ok tt,
     mkWorld
       (QueueDatabase.update_where_id i
          (if retryCount r <? maxRetries r
           then QueueDatabase.set_retry stamp
           else QueueDatabase.set_status failed stamp) (db w))
       (trace w ++ [MarkFailed i])).
Proof.
  intros Hr. unfold db_markMessageFailed.
  by rewrite (markMessageFailed_Ok i stamp (db w) r Hr).
Qed.

Lemma db_markMessageFailed_posts (i stamp : Z) (w : World) :
  posts (trace (snd (db_markMessageFailed i stamp w))) = posts (trace w).
Proof.
  unfold db_markMessageFailed.
  destruct (QueueDatabase.markMessageFailed i stamp (db w)); simpl;
    rewrite posts_app; simpl; apply app_nil_r.
Qed.

Lemma processMessage_result (m : QueueMessage) (inbox : list PortMessage)
    (w w0 : World) :
  fst (processMessage m inbox w) = fst (processMessage m inbox w0).
Proof.
  unfold processMessage. destruct (JSON_parse (payload m)) as [p|]; [|reflexivity].
  unfold bind, emit_event. simpl.
  destruct (List.find (accepts m) inbox) as [data|]; [|reflexivity].
  destruct (error data) as [msg|]; [|reflexivity].
  destruct (String.eqb msg ""); reflexivity.
Qed.

Lemma processMessage_trace (m : QueueMessage) (inbox : list PortMessage)
    (w : World) :
  trace (snd (processMessage m inbox w))
  = trace w ++ match JSON_parse (payload m) with
               | Some p => [Post (request m p)]
               | None => []
               end.
Proof.
  unfold processMessage. destruct (JSON_parse (payload m)) as [p|];
    [|simpl; by rewrite app_nil_r].
  unfold bind, emit_event. simpl.
  destruct (List.find (accepts m) inbox) as [data|]; [|reflexivity].
  destruct (error data) as [msg|]; [|reflexivity].
  destruct (String.eqb msg ""); reflexivity.
Qed.

(** What [on_success] adds to the trace: the completion, then reschedule
    calls for the claimed message and nothing else. *)
Lemma on_success_trace (m : QueueMessage) (env : Env) (w : World) :
  exists rest : list Event,
    trace (snd (on_success m env w)) = trace w ++ MarkComplete (id m) :: rest
    /\ posts rest = [].
Proof.
  on_success_cases m env; rewrite <- ?app_assoc; simpl;
    eexists; split; reflexivity.
Qed.

Lemma on_success_posts (m : QueueMessage) (env : Env) (w : World) :
  posts (trace (snd (on_success m env w))) = posts (trace w).
Proof.
  destruct (on_success_trace m env w) as (rest & -> & Hrest).
  rewrite posts_app. simpl. rewrite Hrest. apply app_nil_r.
Qed.

Lemma on_success_cron_throws (m : QueueMessage) (env : Env) (w : World)
    (pat : string) :
  cronPattern m = Some pat -> pat <> "" ->
  cron_next pat (now_cron env) = None ->
  fst (on_success m env w) = Throw CronError.
Proof.
  intros Hpat Hne Hnext. apply String.eqb_neq in Hne.
  unfold on_success, bind, db_markMessageComplete, handle_interval,
    handle_cron, db_rescheduleMessage, ret, throw.
  rewrite Hpat, Hne, Hnext. simpl.
  destruct (interval m) as [iv|]; [|reflexivity].
  destruct (iv =? 0); [reflexivity|].
  by destruct ((maxRespawns m =? -1) || (respawnCount m <? maxRespawns m)).
Qed.

(** Every pass that claims a message with a parsable payload posts
    exactly one request, whatever happens next. *)
Lemma iteration_posts (workerId : Z) (env : Env) (w : World)
    (m : QueueMessage) (d : Db) (p : Json) :
  QueueDatabase.getNextMessage workerId (now_claim env) (stamp_claim env) (db w)
  = (Some m, d) ->
  JSON_parse (payload m) = Some p ->
  posts (trace (snd (iteration workerId env w)))
  = posts (trace w) ++ [request m p].
Proof.
  intros Hget Hp.
  unfold iteration, bind at 1, db_getNextMessage. rewrite Hget.
  cbn beta iota. rewrite try_catch_bind.
  set (w1 := mkWorld d _).
  assert (posts (trace w1) = posts (trace w)) as Hw1
    by (unfold w1; cbn [trace]; rewrite posts_app; simpl; apply app_nil_r).
  pose proof (processMessage_trace m (inbox env) w1) as Htr. rewrite Hp in Htr.
  assert (posts (trace (snd (processMessage m (inbox env) w1)))
          = posts (trace w) ++ [request m p]) as Hw2
    by (rewrite Htr, posts_app, Hw1; reflexivity).
  destruct (processMessage m (inbox env) w1) as [[[]|e] w2]; simpl in Hw2.
  - pose proof (on_success_posts m env w2) as Hos.
    destruct (on_success m env w2) as [[[]|e] w3]; simpl in *.
    + congruence.
    + rewrite db_markMessageFailed_posts. congruence.
  - rewrite db_markMessageFailed_posts. exact Hw2.
Qed.

End OutcomeFacts.

(** X12: a malformed cron pattern turns a successful run into a failure:
    the handler succeeded and the message was marked complete, but
    cron-parser's exception is caught by the same [catch] as a handler
    error, so the pass ends with [markMessageFailed]: the message is left
    'pending' with [retryCount] one higher when retries remain (and will
    run again), 'failed' otherwise. *)
Theorem malformed_cron_fails_a_completed_run `{Externals} (workerId : Z)
    (env : QueueWorker.Env) (w : QueueWorker.World) (m : QueueMessage) (d : Db)
    (p : Json) (data : PortMessage) (pat : string) :
  QueueDatabase.getNextMessage workerId (QueueWorker.now_claim env)
    (QueueWorker.stamp_claim env) (QueueWorker.db w) = (Some m, d) ->
  JSON_parse (payload m) = Some p ->
  List.find (QueueWorker.accepts m) (QueueWorker.inbox env) = Some data ->
  truthy_string (error data) = false ->
  cronPattern m = Some pat -> pat <> "" ->
  cron_next pat (QueueWorker.now_cron env) = None ->
  exists (w' : QueueWorker.World) (r' : Row),
    QueueWorker.iteration workerId env w = (Ok tt, w')
    /\ In (QueueWorker.MarkComplete (id m)) (QueueWorker.trace w')
    /\ (exists t : list QueueWorker.Event,
          QueueWorker.trace w' = t ++ [QueueWorker.MarkFailed (id m)])
    /\ rows (QueueWorker.db w') !! id m = Some r'
    /\ (retryCount m < maxRetries m ->
          status r' = pending /\ retryCount r' = retryCount m + 1)
    /\ (maxRetries m <= retryCount m -> status r' = failed).
Proof.
  intros Hget Hp Hfind Herr Hpat Hne Hnext.
  rewrite (iteration_after_success workerId env w m d p data Hget Hp Hfind Herr).
  cbv zeta. set (w1 := QueueWorker.mkWorld d _).
  apply getNextMessage_Some in Hget as [Hsel Hd].
  apply select_next_Some in Hsel as (Hm & _).
  assert (rows (QueueWorker.db w1) !! id m
          = Some (QueueDatabase.set_status processing
                    (QueueWorker.stamp_claim env) m)) as Hd1
    by (unfold w1; cbn [QueueWorker.db]; rewrite Hd, lookup_update_eq, Hm;
        reflexivity).
  pose proof (on_success_cron_throws m env w1 pat Hpat Hne Hnext) as Hthrow.
  destruct (on_success_row m env w1) as [_ Hrow].
  destruct (Hrow _ Hd1) as (r3 & Hr3 & Hrc3 & Hmr3 & _).
  destruct (on_success_trace m env w1) as (rest & Htrace & _).
  destruct (QueueWorker.on_success m env w1) as [[[]|e] w3]; simpl in *;
    [discriminate|].
  rewrite (db_markMessageFailed_exact _ _ w3 r3 Hr3).
  eexists. eexists. split; [reflexivity|]. cbn [QueueWorker.db QueueWorker.trace].
  split.
  { rewrite Htrace. rewrite !in_app_iff. left. right. simpl. auto. }
  split; [eauto|].
  split; [rewrite lookup_update_eq, Hr3; reflexivity|].
  rewrite Hrc3, Hmr3. split.
  - intros Hlt. apply Z.ltb_lt in Hlt. rewrite Hlt. simpl. split; [reflexivity|lia].
  - intros Hge. apply Z.ltb_ge in Hge. rewrite Hge. reflexivity.
Qed.

(** The message of [bad_cron_db], answered with success at 10: it ends
    'failed'. *)
Lemma malformed_cron_fails_a_completed_run_witness :
  exists (w' : QueueWorker.World) (r' : Row),
    QueueWorker.iteration 0 (pass_at 10) (QueueWorker.mkWorld bad_cron_db [])
    = (Ok tt, w')
    /\ In (QueueWorker.MarkComplete 1) (QueueWorker.trace w')
    /\ rows (QueueWorker.db w') !! 1 = Some r'
    /\ status r' = failed.
Proof.
  destruct (malformed_cron_fails_a_completed_run (H := sample_externals) 0
              (pass_at 10) (QueueWorker.mkWorld bad_cron_db [])
              (mkMessage 1 (mkRow bad_cron_fields 0 0))
              (snd (QueueDatabase.getNextMessage 0 10 10 bad_cron_db))
              ("{}" : @Json sample_externals) ok_reply "every now and then"
              eq_refl eq_refl eq_refl eq_refl eq_refl ltac:(discriminate)
              eq_refl)
    as (w' & r' & Hrun & Hdone & _ & Hrow & _ & Hfailed).
  exists w', r'. repeat split; try assumption.
  apply Hfailed. simpl. lia.
Defined.

(** X13: recurrence is not evaluated on a failed dispatch: when
    [processMessage] rejects (bad payload, timeout or handler error), the
    pass makes no [markMessageComplete] and no [rescheduleMessage] call;
    the message keeps its [startAt] and goes through the retry policy
    only, interval and cron pattern notwithstanding. *)
Theorem failed_dispatch_skips_recurrence `{Externals} (workerId : Z)
    (env : QueueWorker.Env) (w : QueueWorker.World) (m : QueueMessage) (d : Db)
    (e : Exn) :
  QueueDatabase.getNextMessage workerId (QueueWorker.now_claim env)
    (QueueWorker.stamp_claim env) (QueueWorker.db w) = (Some m, d) ->
  fst (QueueWorker.processMessage m (QueueWorker.inbox env) w) = Throw e ->
  exists (w' : QueueWorker.World) (r' : Row) (evs : list QueueWorker.Event),
    QueueWorker.iteration workerId env w = (Ok tt, w')
    /\ QueueWorker.trace w' = QueueWorker.trace w ++ evs
    /\ Forall (fun ev => match ev with
                         | QueueWorker.MarkComplete _
                         | QueueWorker.Reschedule _ _ => False
                         | _ => True
                         end) evs
    /\ rows (QueueWorker.db w') !! id m = Some r'
    /\ startAt r' = startAt m
    /\ (retryCount m < maxRetries m ->
          status r' = pending /\ retryCount r' = retryCount m + 1)
    /\ (maxRetries m <= retryCount m ->
          status r' = failed /\ retryCount r' = retryCount m).
Proof.
  intros Hget Hfail.
  unfold QueueWorker.iteration, QueueWorker.bind at 1,
    QueueWorker.db_getNextMessage. rewrite Hget.
  cbn beta iota. rewrite try_catch_bind.
  set (w1 := QueueWorker.mkWorld d _).
  rewrite (processMessage_result m _ w w1) in Hfail.
  pose proof (processMessage_keeps_db m (QueueWorker.inbox env) w1) as Hdb.
  pose proof (processMessage_trace m (QueueWorker.inbox env) w1) as Htr.
  destruct (QueueWorker.processMessage m (QueueWorker.inbox env) w1)
    as [[[]|e0] w2]; simpl in Hfail, Hdb, Htr; [discriminate|].
  apply getNextMessage_Some in Hget as [Hsel Hd].
  apply select_next_Some in Hsel as (Hm & _).
  assert (rows (QueueWorker.db w2) !! id m
          = Some (QueueDatabase.set_status processing
                    (QueueWorker.stamp_claim env) m)) as Hd2
    by (rewrite Hdb; unfold w1; cbn [QueueWorker.db];
        rewrite Hd, lookup_update_eq, Hm; reflexivity).
  rewrite (db_markMessageFailed_exact _ _ w2 _ Hd2).
  eexists. eexists. eexists. split; [reflexivity|].
  cbn [QueueWorker.db QueueWorker.trace].
  split.
  { rewrite Htr. unfold w1. cbn [QueueWorker.trace].
    rewrite <- !app_assoc. reflexivity. }
  split.
  { simpl. destruct (JSON_parse (payload m)); repeat constructor. }
  split; [rewrite lookup_update_eq, Hd2; reflexivity|].
  cbn [retryCount maxRetries fields QueueDatabase.set_status].
  split; [by destruct (retryCount m <? maxRetries m)|]. split.
  - intros Hlt. apply Z.ltb_lt in Hlt. rewrite Hlt. simpl. auto.
  - intros Hge. apply Z.ltb_ge in Hge. rewrite Hge. simpl. auto.
Qed.

(** The interval message of [interval_db], unanswered at 10: no reschedule,
    'failed' at once (it has no retries). *)
Lemma failed_dispatch_skips_recurrence_witness :
  exists (w' : QueueWorker.World) (r' : Row),
    QueueWorker.iteration 0 (silent_pass 10)
      (QueueWorker.mkWorld interval_db []) = (Ok tt, w')
    /\ QueueWorker.reschedules (QueueWorker.trace w') = []
    /\ rows (QueueWorker.db w') !! 1 = Some r'
    /\ startAt r' = 0 /\ status r' = failed.
Proof.
  destruct (failed_dispatch_skips_recurrence (H := sample_externals) 0
              (silent_pass 10) (QueueWorker.mkWorld interval_db [])
              (mkMessage 1 (mkRow interval_fields 0 0))
              (snd (QueueDatabase.getNextMessage 0 10 10 interval_db))
              Timeout eq_refl eq_refl)
    as (w' & r' & evs & Hrun & Htrace & Hevs & Hrow & Hstart & _ & Hfailed).
  exists w', r'. split; [exact Hrun|]. split.
  - rewrite Htrace. simpl. clear Htrace.
    induction Hevs as [|ev evs Hev _ IH]; [reflexivity|].
    destruct ev; simpl; try exact IH; destruct Hev.
  - split; [exact Hrow|]. split; [exact Hstart|].
    apply Hfailed. simpl. lia.
Defined.

(** X14: a payload travels unchanged from the producer to the dispatch:
    when [JSON.parse] undoes [JSON.stringify] on it, a message added to a
    store with nothing else pending is the one the next due pass claims,
    and the single request that pass posts names the producer's queue and
    carries the producer's payload (and, see C5, no [messageId]). *)
Theorem payload_reaches_dispatch `{Externals} (options : QueueManager.Options)
    (now stamp workerId : Z) (env : QueueWorker.Env) (store : Db) :
  (forall (j : Z) (r : Row), rows store !! j = Some r -> status r <> pending) ->
  JSON_parse (JSON_stringify (QueueManager.opt_payload options))
  = Some (QueueManager.opt_payload options) ->
  match QueueManager.opt_startAt options with
  | Some t => t
  | None => now
  end <= QueueWorker.now_claim env ->
  QueueWorker.posts
    (QueueWorker.trace
       (snd (QueueWorker.iteration workerId env
               (QueueWorker.mkWorld
                  (snd (QueueManager.addMessage options now stamp store)) []))))
  = [mkPort "process" (Some (QueueManager.opt_queue options))
       (Some (QueueManager.opt_payload options)) None None None].
Proof.
  intros Hnone Hjson Hdue.
  set (i := fst (QueueManager.addMessage options now stamp store)).
  set (db1 := snd (QueueManager.addMessage options now stamp store)).
  set (r := mkRow (QueueManager.new_message options now) stamp stamp).
  assert (rows db1 !! i = Some r) as Hi by apply addMessage_stores.
  assert (forall j : Z, j <> i -> rows db1 !! j = rows store !! j) as Hother.
  { intros j Hj. unfold db1, QueueManager.addMessage, QueueDatabase.addMessage.
    cbn [snd rows]. apply lookup_insert_ne. intros Heq. apply Hj. rewrite <- Heq.
    reflexivity. }
  assert (sole_pending i db1) as Hsole.
  { intros j r0 Hj Hst. destruct (decide (j = i)) as [->|Hne]; [reflexivity|].
    rewrite Hother in Hj by done. by destruct (Hnone j r0 Hj). }
  assert (QueueDatabase.getNextMessage workerId (QueueWorker.now_claim env)
            (QueueWorker.stamp_claim env) db1
          = (Some (mkMessage i r),
             QueueDatabase.update_where_id i
               (QueueDatabase.set_status processing (QueueWorker.stamp_claim env))
               db1)) as Hget.
  { unfold QueueDatabase.getNextMessage.
    by rewrite (select_next_sole _ i db1 r Hsole Hi eq_refl Hdue). }
  rewrite (iteration_posts workerId env (QueueWorker.mkWorld db1 [])
             (mkMessage i r) _ (QueueManager.opt_payload options) Hget Hjson).
  reflexivity.
Qed.

(** With the stand-in JSON, a default message added at 5 and a pass at 10. *)
Lemma payload_reaches_dispatch_witness :
  QueueWorker.posts
    (QueueWorker.trace
       (snd (QueueWorker.iteration 0 (silent_pass 10)
               (QueueWorker.mkWorld
                  (snd (QueueManager.addMessage
                          (@QueueManager.mkOptions sample_externals "mail"
                             "{}" None None None None None) 5 5 empty_db))
                  []))))
  = [mkPort "process" (Some "mail") (Some "{}") None None None].
Proof.
  apply (payload_reaches_dispatch (H := sample_externals)
           (@QueueManager.mkOptions sample_externals "mail" "{}" None None
              None None None)
           5 5 0 (silent_pass 10) empty_db).
  - intros j r Hj. simpl in Hj. rewrite lookup_empty in Hj. discriminate.
  - reflexivity.
  - simpl. lia.
Defined.

(** * Finishing calls *)

Section FinishFacts.
Context `{Externals}.
Import QueueDatabase.

Lemma update_where_id_comm (i j : Z) (f g : Row -> Row) (db : Db) :
  i <> j ->
  update_where_id i f (update_where_id j g db)
  = update_where_id j g (update_where_id i f db).
Proof.
  intros Hne. unfold update_where_id; simpl. f_equal.
  apply map_eq. intros k.
  destruct (decide (k = i)) as [Hki|Hki]; destruct (decide (k = j)) as [Hkj|Hkj];
    subst; try congruence;
    repeat first [ rewrite lookup_alter_eq
                 | rewrite lookup_alter_ne by congruence ];
    reflexivity.
Qed.

(** A finishing call is an update of its row by a function that the row
    itself determines. *)
Lemma finishing_call_is_update (c : Call) (i : Z) (db : Db) :
  finishes c = Some i ->
  exists pick : option Row -> Row -> Row,
    forall d : Db,
      rows d !! i = rows db !! i ->
      call c d = update_where_id i (pick (rows db !! i)) d.
Proof.
  destruct c as [options now stamp| w now stamp | k stamp | k stamp
                | k t stamp]; simpl; intros Hc; inversion Hc; subst.
  - exists (fun _ => set_status completed stamp). reflexivity.
  - exists (fun o : option Row =>
              match o with
              | Some m => if retryCount m <? maxRetries m
                          then set_retry stamp else set_status failed stamp
              | None => fun r => r
              end).
    intros d Hd. unfold markMessageFailed, select_by_id. rewrite Hd.
    destruct (rows db !! i) as [m|] eqn:Hm.
    + by destruct (retryCount m <? maxRetries m).
    + unfold update_where_id. destruct d as [rs s]. simpl in *. f_equal.
      apply map_eq. intros k. destruct (decide (k = i)) as [->|Hne].
      * by rewrite lookup_alter_eq, Hd.
      * by rewrite lookup_alter_ne by congruence.
  - exists (fun _ => set_startAt t stamp). reflexivity.
Qed.

End FinishFacts.

(** X15: workers that finish different messages do not interfere: two
    calls among [markMessageComplete], [markMessageFailed] and
    [rescheduleMessage] on different ids leave the same database in either
    order. *)
Theorem finishing_calls_commute `{Externals} (c1 c2 : Call) (i j : Z) (db : Db) :
  finishes c1 = Some i -> finishes c2 = Some j -> i <> j ->
  call c1 (call c2 db) = call c2 (call c1 db).
Proof.
  intros H1 H2 Hne.
  destruct (finishing_call_is_update c1 i db H1) as (f & Hf).
  destruct (finishing_call_is_update c2 j db H2) as (g & Hg).
  rewrite (Hg db eq_refl), (Hf db eq_refl).
  rewrite (Hf (QueueDatabase.update_where_id j _ db)),
          (Hg (QueueDatabase.update_where_id i _ db)).
  - by apply update_where_id_comm.
  - apply lookup_update_ne. congruence.
  - by apply lookup_update_ne.
Qed.

(** A failure of message 1 and a completion of message 2 of [two_db]. *)
Lemma finishing_calls_commute_witness :
  call (CallFailed 1 7) (call (CallComplete 2 8) two_db)
  = call (CallComplete 2 8) (call (CallFailed 1 7) two_db).
Proof.
  apply (finishing_calls_commute (H := sample_externals)
           (CallFailed 1 7) (CallComplete 2 8) 1 2 two_db eq_refl eq_refl).
  discriminate.
Defined.


